(** * The example block and the app definition of the Flows app template

    The development follows the two TypeScript modules of the template:
    [blocks/exampleBlock.ts] (the block [exampleBlock], its input schema, its
    handler [onEvent] and its output schema) and [main.ts] (the app-level
    configuration schema).  The handler is translated statement by statement
    into a small state-and-exception monad; the SDK's [events.emit] is a
    parameter of the handler.  The host runtime, which is not part of the
    template, is modelled separately in [Module Host]; [Module Shared] has the
    handler read its input through references to objects that it could
    assign to; [Module Setup] follows [setup.sh]. *)

From Stdlib Require Import ZArith Lia.
From stdpp Require Import base option list strings gmap.

#[local] Set Warnings "-register-all".

(** ** JavaScript values and the string operations the handler uses *)

Module JS.

(** The values that configuration maps and event parameters hold, and that
    the fields of a payload hold.  Every field declared in the template has
    type "string", so only primitive values are modelled; numbers do not
    occur and are left out.  A character of a Rocq string stands for one code
    unit of the JavaScript string. *)
Inductive value : Type :=
| VUndefined
| VNull
| VBool (b : bool)
| VStr (s : string).

(** An object literal with primitive fields, in source order. *)
Abbreviation object := (list (string * value)).

(** ToString, as applied by a template literal substitution. *)
Definition to_string (v : value) : string :=
  match v with
  | VUndefined => "undefined"
  | VNull => "null"
  | VBool true => "true"
  | VBool false => "false"
  | VStr s => s
  end.

(** [String.prototype.substring(start, end)]: both indices are clamped to
    [0 .. length], and swapped when [start > end]. *)
Definition substring (s : string) (start end_ : Z) : string :=
  let len := Z.of_nat (String.length s) in
  let fs := Z.min (Z.max start 0) len in
  let fe := Z.min (Z.max end_ 0) len in
  let from := Z.min fs fe in
  let to := Z.max fs fe in
  String.substring (Z.to_nat from) (Z.to_nat (to - from)) s.

(** Property read [o.k] on an object used as a map: an absent key reads as
    [undefined]. *)
Definition prop (o : gmap string value) (k : string) : value :=
  default VUndefined (o !! k).

(** Property read on an object literal (first binding of the key). *)
Fixpoint field (k : string) (fields : object) : value :=
  match fields with
  | [] => VUndefined
  | (k', v) :: rest => if String.eqb k k' then v else field k rest
  end.

(** [hay.includes(needle)]. *)
Fixpoint includes (needle hay : string) : bool :=
  String.prefix needle hay ||
  match hay with
  | EmptyString => false
  | String _ hay' => includes needle hay'
  end.

(** The exceptions that can arise in a handler invocation. *)
Inductive type_error : Type :=
| ReadOfNullish (receiver : value) (property : string)
| NotAFunction (property : string).

Inductive emit_error : Type :=
| UndeclaredOutput (output : string)
| NoDefaultOutput
| PayloadMismatch (output : string).

Inductive exception : Type :=
| TypeError (e : type_error)
| EmitError (e : emit_error).

End JS.
Export JS.

(** ** Completions and the effect monad of a handler *)

Inductive completion (A : Type) : Type :=
| Normal (a : A)
| Throw (e : exception).
Arguments Normal {A} a.
Arguments Throw {A} e.

(** A computation over a state [S] that completes normally or throws. *)
Definition Eff (S A : Type) : Type := S -> completion A * S.

Definition ret {S A} (a : A) : Eff S A := fun s => (Normal a, s).
Definition throw {S A} (e : exception) : Eff S A := fun s => (Throw e, s).
Definition bind {S A B} (m : Eff S A) (k : A -> Eff S B) : Eff S B :=
  fun s =>
    match m s with
    | (Normal a, s') => k a s'
    | (Throw e, s') => (Throw e, s')
    end.

Declare Scope eff_scope.
Delimit Scope eff_scope with eff.
Notation "x <- m ;; k" := (bind m (fun x => k))
  (at level 100, m at next level, right associativity) : eff_scope.
Notation "m ;; k" := (bind m (fun _ => k))
  (at level 100, right associativity) : eff_scope.

(** ** Schemas *)

(** Declared type of a configuration field or input parameter. *)
Inductive FieldType : Type := TString | TBoolean.

(** A configuration field ([main.ts]) or an input parameter
    ([exampleBlock.ts]).  A flag that the source leaves out is [false]; a
    missing [default] is [None]. *)
Record FieldSpec : Type := {
  name : string;
  description : string;
  type : FieldType;
  required : bool;
  sensitive : bool;
  dflt : option value;
}.

(** The JSON-Schema-like shape of an output payload. *)
Inductive Schema : Type :=
| SString
| SBoolean
| SObject (properties : list (string * Schema)) (required_keys : list string).

Record OutputDefinition : Type := {
  out_name : string;
  out_description : string;
  out_default : bool;
  out_type : Schema;
}.

(** ** The handler's input *)

Record Event : Type := { inputConfig : gmap string value }.
Record AppContext : Type := { config : gmap string value }.
Record EventInput : Type := { event : Event; app : AppContext }.

(** The emit capability: [events.emit(payload)] is [emit None payload],
    [events.emit(payload, { outputKey })] is [emit (Some outputKey) payload]. *)
Definition EmitCap (S : Type) : Type := option string -> object -> Eff S unit.

(** What the host sees of a handler's run: the handler completes, throws, or
    calls the emit capability and goes on from the completion of that call.
    The continuation receives the completion, also a thrown one, so a body can
    catch what the emit capability throws; everything the handler computes in
    between is in the Rocq functions that build the body. *)
Inductive Body : Type :=
| Done
| Raise (e : exception)
| Emit (target : option string) (payload : object) (next : completion unit -> Body).

(** Running a body against an emit capability. *)
Fixpoint perform {S : Type} (emit : EmitCap S) (b : Body) : Eff S unit :=
  match b with
  | Done => ret tt
  | Raise e => throw e
  | Emit target payload next =>
      fun s => let r := emit target payload s in perform emit (next (fst r)) (snd r)
  end.

(** ** [blocks/exampleBlock.ts] *)

Module ExampleBlock.

Definition block_name : string := "Example Action".
Definition block_description : string :=
  "A simple example block that processes text input".
Definition category : string := "Example".

(** [inputs.default.config] *)
Definition input_config : list (string * FieldSpec) :=
  [ ("message",
     {| name := "Message";
        description := "The text message to process";
        type := TString;
        required := true;
        sensitive := false;
        dflt := None |}) ].

(** [outputs] *)
Definition outputs : list (string * OutputDefinition) :=
  [ ("default",
     {| out_name := "Result";
        out_description := "The processed message result";
        out_default := true;
        out_type :=
          SObject [ ("message", SString); ("originalMessage", SString) ]
                  [ "message"; "originalMessage" ] |}) ].

(** [apiKey.substring(0, 8)]: the method call throws a TypeError when the
    receiver is [undefined] or [null], or has no [substring] method. *)
Definition call_substring {S} (receiver : value) (start end_ : Z)
  : Eff S string :=
  match receiver with
  | VStr s => ret (substring s start end_)
  | VUndefined | VNull => throw (TypeError (ReadOfNullish receiver "substring"))
  | VBool _ => throw (TypeError (NotAFunction "substring"))
  end.

(** The text of the template literal, given the substituted key prefix. *)
Definition processed (message baseUrl : value) (keyPrefix : string) : string :=
  "Processed: " +:+ to_string message +:+ " (using " +:+ to_string baseUrl
    +:+ " with API key: " +:+ keyPrefix +:+ "...)".

Definition payload (processedMessage : string) (message : value) : object :=
  [ ("message", VStr processedMessage); ("originalMessage", message) ].

Section Handler.
Context {S : Type} (emit : EmitCap S).

(** [inputs.default.onEvent] *)
Definition onEvent (input : EventInput) : Eff S unit :=
  (let message := prop (inputConfig (event input)) "message" in
   let apiKey := prop (config (app input)) "apiKey" in
   let baseUrl := prop (config (app input)) "baseUrl" in
   keyPrefix <- call_substring apiKey 0 8 ;;
   let processedMessage := processed message baseUrl keyPrefix in
   emit None (payload processedMessage message))%eff.
End Handler.

End ExampleBlock.

(** The source's handler is a body: it throws at [apiKey.substring], or makes
    its one call of the emit capability and lets what that call throws leave
    the handler. *)
Definition onEvent_body (input : EventInput) : Body :=
  match prop (config (app input)) "apiKey" with
  | VStr k =>
      Emit None
        (ExampleBlock.payload (ExampleBlock.processed (prop (inputConfig (event input)) "message")
                            (prop (config (app input)) "baseUrl")
                            (substring k 0 8))
                 (prop (inputConfig (event input)) "message"))
        (fun c => match c with Normal _ => Done | Throw e => Raise e end)
  | VUndefined => Raise (TypeError (ReadOfNullish VUndefined "substring"))
  | VNull => Raise (TypeError (ReadOfNullish VNull "substring"))
  | VBool _ => Raise (TypeError (NotAFunction "substring"))
  end.

(** ** Block and app definitions

    The shapes of the SDK's [AppBlock] and of the argument of [defineApp], as
    the two modules fill them in.  A handler receives the emit capability of
    the invocation and the event input. *)

Record InputDefinition (S : Type) : Type := {
  in_config : list (string * FieldSpec);
  in_onEvent : EmitCap S -> EventInput -> Eff S unit;
}.
Arguments in_config {S} _.
Arguments in_onEvent {S} _ _ _.

Record AppBlock (S : Type) : Type := {
  blk_name : string;
  blk_description : string;
  blk_category : string;
  blk_inputs : list (string * InputDefinition S);
  blk_outputs : list (string * OutputDefinition);
}.
Arguments blk_name {S} _.
Arguments blk_description {S} _.
Arguments blk_category {S} _.
Arguments blk_inputs {S} _.
Arguments blk_outputs {S} _.

Record AppDefinition (S : Type) : Type := {
  app_name : string;
  installationInstructions : string;
  app_blocks : list (string * AppBlock S);
  app_fields : list (string * FieldSpec);
}.
Arguments app_name {S} _.
Arguments installationInstructions {S} _.
Arguments app_blocks {S} _.
Arguments app_fields {S} _.

(** [exampleBlock] of [blocks/exampleBlock.ts]. *)
Definition exampleBlock (S : Type) : AppBlock S :=
  {| blk_name := ExampleBlock.block_name;
     blk_description := ExampleBlock.block_description;
     blk_category := ExampleBlock.category;
     blk_inputs :=
       [ ("default",
          {| in_config := ExampleBlock.input_config;
             in_onEvent := fun emit input => ExampleBlock.onEvent emit input |}) ];
     blk_outputs := ExampleBlock.outputs |}.

(** [blocks] of [blocks/index.ts]. *)
Definition blocks (S : Type) : list (string * AppBlock S) :=
  [ ("example", exampleBlock S) ].

(** ** [main.ts] *)

Module Main.

Definition config : list (string * FieldSpec) :=
  [ ("apiKey",
     {| name := "API Key";
        description := "Your service API key";
        type := TString;
        required := true;
        sensitive := true;
        dflt := None |});
    ("baseUrl",
     {| name := "Base URL";
        description := "API base URL";
        type := TString;
        required := false;
        sensitive := false;
        dflt := Some (VStr "https://api.example.com") |}) ].

Definition newline : string := String (Ascii.ascii_of_nat 10) EmptyString.

Definition app (S : Type) : AppDefinition S :=
  {| app_name := "{{APP_NAME}}";
     installationInstructions :=
       "{{APP_DESCRIPTION}}" +:+ newline +:+ newline +:+ "To install:" +:+ newline
         +:+ "1. Add your API key" +:+ newline
         +:+ "2. Configure the base URL if needed" +:+ newline
         +:+ "3. Start using the blocks in your flows";
     app_blocks := blocks S;
     app_fields := config |}.

End Main.

(** Lookup in an object literal kept as an association list. *)
Fixpoint assoc {A} (k : string) (l : list (string * A)) : option A :=
  match l with
  | [] => None
  | (k', a) :: rest => if String.eqb k k' then Some a else assoc k rest
  end.

(** An emit capability that only records what it is given, in call order. *)
Definition record_emit : EmitCap (list (option string * object)) :=
  fun target payload log => (Normal tt, (log ++ [(target, payload)])%list).

(** ** The host runtime *)

Module Host.

(** Modelled from the spec: the schema check that the host applies to output
    payloads is not in the template.  A primitive value conforms to a shape
    when it has the declared type. *)
Definition conforms_value (sch : Schema) (v : value) : bool :=
  match sch, v with
  | SString, VStr _ => true
  | SBoolean, VBool _ => true
  | _, _ => false
  end.

(** Modelled from the spec: an object conforms to an object shape when every
    required property is defined and every declared property that is defined
    conforms to its own shape. *)
Definition conforms (sch : Schema) (o : object) : bool :=
  match sch with
  | SObject properties required_keys =>
      forallb (fun k => match field k o with
                        | VUndefined => false
                        | _ => true
                        end) required_keys
      && forallb (fun ks => match field (fst ks) o with
                            | VUndefined => true
                            | v => conforms_value (snd ks) v
                            end) properties
  | _ => false
  end.

(** Modelled from the spec: the two ways a field fails validation (sections
    4.1 and 7): a required value is missing, or a value has the wrong type;
    the error names the offending field. *)
Inductive FieldError : Type :=
| MissingRequired (key : string)
| WrongType (key : string).

(** Modelled from the spec: the type check of a supplied value. *)
Definition has_type (v : value) (t : FieldType) : bool :=
  match t, v with
  | TString, VStr _ => true
  | TBoolean, VBool _ => true
  | _, _ => false
  end.

(** Modelled from the spec: an installer or an event leaves a field unset by
    omitting it; [undefined] and [null] count as omitted. *)
Definition unset (o : option value) : bool :=
  match o with
  | None | Some VUndefined | Some VNull => true
  | Some _ => false
  end.

(** Modelled from the spec: the empty string is the empty value of section
    4.1 ("present and non-empty"). *)
Definition is_empty (v : value) : bool :=
  match v with
  | VStr EmptyString => true
  | _ => false
  end.

(** Modelled from the spec: the host's resolution of one field (section 4.1)
    is not in the template.  An unset field resolves to its declared default;
    a required field without a default must be present and non-empty; a
    supplied value must have the declared type. *)
Definition resolve_field (k : string) (spec : FieldSpec) (supplied : option value)
  : FieldError + option value :=
  if unset supplied then
    match dflt spec with
    | Some d => inr (Some d)
    | None => if required spec then inl (MissingRequired k) else inr None
    end
  else
    match supplied with
    | Some v =>
        if negb (has_type v (type spec)) then inl (WrongType k)
        else if required spec && negb (bool_decide (is_Some (dflt spec))) && is_empty v
             then inl (MissingRequired k)
             else inr (Some v)
    | None => inr None
    end.

(** Every default has the type its field declares. *)
Definition defaults_typed (schema : list (string * FieldSpec)) : Prop :=
  forall k spec d, (k, spec) ∈ schema -> dflt spec = Some d ->
    has_type d (type spec) = true.

(** Modelled from the spec: the host's centralized field validation, shared
    by configuration resolution and input validation, is not in the template.
    Every declared field is resolved; all errors are collected. *)
Fixpoint check_fields (schema : list (string * FieldSpec)) (raw : gmap string value)
  : list FieldError * gmap string value :=
  match schema with
  | [] => ([], ∅)
  | (k, spec) :: rest =>
      let '(errs, resolved) := check_fields rest raw in
      match resolve_field k spec (raw !! k) with
      | inl e => (e :: errs, resolved)
      | inr (Some v) => (errs, <[k := v]> resolved)
      | inr None => (errs, resolved)
      end
  end.

(** Modelled from the spec: configuration resolution (section 4.1) is done by
    the host and is not in the template. *)
Definition resolveConfig (schema : list (string * FieldSpec)) (raw : gmap string value)
  : list FieldError + gmap string value :=
  match check_fields schema raw with
  | ([], resolved) => inr resolved
  | (errs, _) => inl errs
  end.

(** Modelled from the spec: validation of event parameters against the input's
    declared schema (section 4.2) is done by the host and is not in the
    template. *)
Definition validateInput (schema : list (string * FieldSpec)) (params : gmap string value)
  : list FieldError + gmap string value :=
  resolveConfig schema params.

(** Modelled from the spec: an installation runs with its resolved
    configuration, or did not start because of configuration errors. *)
Inductive Status : Type :=
| Running (resolved : gmap string value)
| NotStarted (errs : list FieldError).

Record Emission : Type := {
  em_block : string;
  em_output : string;
  em_payload : object;
}.

(** Modelled from the spec: the outcome of a delivery, after the error
    taxonomy of section 7.  An emission contract violation is reported where
    it happens; as the outcome of a delivery it is a handler error. *)
Inductive Outcome : Type :=
| Succeeded
| AppNotRunning
| UnknownTarget
| InputValidationError (errs : list FieldError)
| HandlerError (e : exception)
| EmissionViolation (v : emit_error).

(** Modelled from the spec: the state of one installation, which the host
    owns: its status with the resolved configuration, the events emitted so
    far, the number of handler executions started, and the failures reported
    to the host. *)
Record State : Type := {
  status : Status;
  emitted : list Emission;
  started : nat;
  reported : list Outcome;
}.

Definition with_emitted (h : State) (es : list Emission) : State :=
  {| status := status h; emitted := es; started := started h;
     reported := reported h |}.
Definition with_started (h : State) (n : nat) : State :=
  {| status := status h; emitted := emitted h; started := n;
     reported := reported h |}.
Definition with_reported (h : State) (o : Outcome) : State :=
  {| status := status h; emitted := emitted h; started := started h;
     reported := reported h ++ [o] |}.

(** Modelled from the spec: the output flagged as the block's default route,
    which an emit without an output identifier addresses. *)
Fixpoint default_output (outs : list (string * OutputDefinition)) : option string :=
  match outs with
  | [] => None
  | (k, d) :: rest => if out_default d then Some k else default_output rest
  end.

(** Modelled from the spec: an emission contract violation (sections 4.3 and
    7) fails loudly: it is reported to the host and thrown into the handler. *)
Definition violation (v : emit_error) (h : State) : completion unit * State :=
  (Throw (EmitError v), with_reported h (EmissionViolation v)).

(** Modelled from the spec: the emit capability bound to the invoked block
    (section 4.3) belongs to the SDK and is not in the template.  Emitting on
    an undeclared output, or a payload that violates the declared shape, is a
    contract violation; otherwise the event is appended to the emitted
    events. *)
Definition emit (blockId : string) (outs : list (string * OutputDefinition))
  : EmitCap State :=
  fun target payload h =>
    match (match target with Some o => Some o | None => default_output outs end) with
    | None => violation NoDefaultOutput h
    | Some o =>
        match assoc o outs with
        | None => violation (UndeclaredOutput o) h
        | Some d =>
            if conforms (out_type d) payload
            then (Normal tt,
                  with_emitted h (emitted h ++
                    [ {| em_block := blockId; em_output := o; em_payload := payload |} ]))
            else violation (PayloadMismatch o) h
        end
    end.

(** Modelled from the spec: the first contract violation among the reports of
    one invocation. *)
Fixpoint first_violation (news : list Outcome) : option emit_error :=
  match news with
  | [] => None
  | EmissionViolation v :: _ => Some v
  | _ :: rest => first_violation rest
  end.

(** Modelled from the spec: the reports that are contract violations. *)
Definition is_violation (r : Outcome) : Prop :=
  match r with EmissionViolation _ => True | _ => False end.

(** Whether the run of a body, started in [h], calls the emit capability with
    the output identifier [o]. *)
Fixpoint emits_on (em : EmitCap State) (o : string) (b : Body) (h : State) : bool :=
  match b with
  | Done | Raise _ => false
  | Emit target payload next =>
      bool_decide (target = Some o)
      || emits_on em o (next (fst (em target payload h))) (snd (em target payload h))
  end.

(** Modelled from the spec: installation (sections 4.1 and 7).  A
    configuration error is fatal to startup. *)
Definition install (a : AppDefinition State) (raw : gmap string value) : State :=
  {| status := match resolveConfig (app_fields a) raw with
               | inr resolved => Running resolved
               | inl errs => NotStarted errs
               end;
     emitted := [];
     started := 0;
     reported := [] |}.

(** Modelled from the spec: one handler execution (sections 4.2, 4.3 and 7).
    The handler runs with the emit capability of its block.  The invocation
    fails when the handler throws, and also when a contract violation was
    reported during it, whatever the handler did with the error it was
    thrown: an emission on an undeclared output must fail the invocation.  A
    failure is reported, and no partial output of the invocation is kept. *)
Definition invoke (blockId : string) (b : AppBlock State) (i : InputDefinition State)
    (input : EventInput) (h : State) : Outcome * State :=
  let h1 := with_started h (S (started h)) in
  let r := in_onEvent i (emit blockId (blk_outputs b)) input h1 in
  let failed e :=
    (HandlerError e,
     with_reported (with_emitted (snd r) (emitted h)) (HandlerError e)) in
  match fst r with
  | Throw e => failed e
  | Normal _ =>
      match first_violation (drop (length (reported h1)) (reported (snd r))) with
      | Some v => failed (EmitError v)
      | None => (Succeeded, snd r)
      end
  end.

(** Modelled from the spec: block dispatch (section 4.2) is done by the host
    and is not in the template.  Parameters are validated against the input's
    schema before the handler is invoked. *)
Definition dispatch (a : AppDefinition State) (blockId inputId : string)
    (params : gmap string value) (h : State) : Outcome * State :=
  match status h with
  | NotStarted _ => (AppNotRunning, h)
  | Running resolved =>
      match assoc blockId (app_blocks a) with
      | None => (UnknownTarget, with_reported h UnknownTarget)
      | Some b =>
          match assoc inputId (blk_inputs b) with
          | None => (UnknownTarget, with_reported h UnknownTarget)
          | Some i =>
              match validateInput (in_config i) params with
              | inl errs =>
                  (InputValidationError errs,
                   with_reported h (InputValidationError errs))
              | inr validated =>
                  invoke blockId b i
                    {| event := {| inputConfig := validated |};
                       app := {| config := resolved |} |} h
              end
          end
      end
  end.

(** Modelled from the spec: a delivery addressed to an input of a block. *)
Record Delivery : Type := {
  to_block : string;
  to_input : string;
  params : gmap string value;
}.

(** Modelled from the spec: the deliveries of a run, handled one after the
    other. *)
Fixpoint run (a : AppDefinition State) (ds : list Delivery) (h : State) : State :=
  match ds with
  | [] => h
  | d :: rest => run a rest (snd (dispatch a (to_block d) (to_input d) (params d) h))
  end.

End Host.

(** ** Sample inputs *)

Module Sample.

Definition message_hi : gmap string value := {[ "message" := VStr "hi" ]}.

Definition resolved_secret : gmap string value :=
  {[ "apiKey" := VStr "secret123"; "baseUrl" := VStr "https://api.example.com" ]}.

Definition resolved_short : gmap string value :=
  {[ "apiKey" := VStr "abc12345"; "baseUrl" := VStr "https://api.example.com" ]}.

Definition input_hi (resolved : gmap string value) : EventInput :=
  {| event := {| inputConfig := message_hi |}; app := {| config := resolved |} |}.

(** The two field specifications of [Main.config]. *)
Definition apiKey_spec : FieldSpec :=
  {| name := "API Key"; description := "Your service API key"; type := TString;
     required := true; sensitive := true; dflt := None |}.

Definition baseUrl_spec : FieldSpec :=
  {| name := "Base URL"; description := "API base URL"; type := TString;
     required := false; sensitive := false;
     dflt := Some (VStr "https://api.example.com") |}.

Definition raw_secret : gmap string value := {[ "apiKey" := VStr "secret123" ]}.

End Sample.

(** ** Sample handler bodies *)

Module EmitSample.

(** [events.emit(payload, { outputKey: "audit" })] and nothing else: what the
    call throws leaves the handler. *)
Definition misrouting (input : EventInput) : Body :=
  Emit (Some "audit") [ ("message", VStr "x"); ("originalMessage", VStr "y") ]
    (fun c => match c with Normal _ => Done | Throw e => Raise e end).

(** The same call inside [try { ... } catch { }]: what the call throws is
    swallowed, and the handler then emits on the default output. *)
Definition swallowing (input : EventInput) : Body :=
  Emit (Some "audit") [ ("message", VStr "x"); ("originalMessage", VStr "y") ]
    (fun _ =>
       Emit None [ ("message", VStr "x"); ("originalMessage", VStr "y") ]
         (fun _ => Done)).

Definition with_body (body : EventInput -> Body) : InputDefinition Host.State :=
  {| in_config := ExampleBlock.input_config;
     in_onEvent := fun em input => perform em (body input) |}.

(** The call of [misrouting] written directly against the emit capability. *)
Definition direct : InputDefinition Host.State :=
  {| in_config := ExampleBlock.input_config;
     in_onEvent := fun em _ =>
       em (Some "audit") [ ("message", VStr "x"); ("originalMessage", VStr "y") ] |}.

End EmitSample.

(** ** Objects shared between the host and the handlers *)

Module Shared.

(** JavaScript hands objects over by reference: [input.app.config] is the
    installation's configuration object itself, and a handler could assign to
    its properties.  The world holds the objects by location, unprotected,
    and the events emitted so far. *)
Record World : Type := {
  objects : gmap nat (gmap string value);
  events : list (option string * object);
}.

(** The handler's input, as the locations of [input.event.inputConfig] and
    of [input.app.config]. *)
Record InputRef : Type := {
  inputConfig_at : nat;
  config_at : nat;
}.

(** [o.k] *)
Definition get_prop (at_ : nat) (k : string) : Eff World value :=
  fun w =>
    match objects w !! at_ with
    | Some o => (Normal (prop o k), w)
    | None => (Throw (TypeError (ReadOfNullish VUndefined k)), w)
    end.

(** [o.k = v] *)
Definition set_prop (at_ : nat) (k : string) (v : value) : Eff World unit :=
  fun w =>
    match objects w !! at_ with
    | Some o =>
        (Normal tt,
         {| objects := <[at_ := <[k := v]> o]> (objects w); events := events w |})
    | None => (Throw (TypeError (ReadOfNullish VUndefined k)), w)
    end.

(** An emit capability that records the event and touches no object. *)
Definition emit : EmitCap World :=
  fun target payload w =>
    (Normal tt,
     {| objects := objects w; events := events w ++ [(target, payload)] |}).

(** [inputs.default.onEvent] of [blocks/exampleBlock.ts], with its three
    property reads made on the shared objects. *)
Definition onEvent (emit : EmitCap World) (input : InputRef) : Eff World unit :=
  (message <- get_prop (inputConfig_at input) "message" ;;
   apiKey <- get_prop (config_at input) "apiKey" ;;
   baseUrl <- get_prop (config_at input) "baseUrl" ;;
   keyPrefix <- ExampleBlock.call_substring apiKey 0 8 ;;
   let processedMessage := ExampleBlock.processed message baseUrl keyPrefix in
   emit None (ExampleBlock.payload processedMessage message))%eff.

(** A handler that is not in the template: it assigns to
    [input.app.config.apiKey] before doing what [onEvent] does. *)
Definition assigning (emit : EmitCap World) (input : InputRef) : Eff World unit :=
  (set_prop (config_at input) "apiKey" (VStr "rotated") ;;
   onEvent emit input)%eff.

(** The host puts the parameters of an event into a new object. *)
Definition alloc (o : gmap string value) (w : World) : nat * World :=
  let l := fresh (dom (objects w)) in
  (l, {| objects := <[l := o]> (objects w); events := events w |}).

(** One delivery: the handler runs with a reference to the new parameters
    object and a reference to the configuration object of the installation,
    the same object for every invocation; the parameters are handed over as
    they come, validated or not. *)
Definition deliver (handler : EmitCap World -> InputRef -> Eff World unit)
    (config_at : nat) (ps : gmap string value) (w : World) : World :=
  snd (handler emit
         {| inputConfig_at := fst (alloc ps w); config_at := config_at |}
         (snd (alloc ps w))).

(** The deliveries of a lifetime, one after the other. *)
Fixpoint run (handler : EmitCap World -> InputRef -> Eff World unit)
    (config_at : nat) (dss : list (gmap string value)) (w : World) : World :=
  match dss with
  | [] => w
  | ps :: rest => run handler config_at rest (deliver handler config_at ps w)
  end.

(** What the handler emits for given parameters and a given configuration,
    both taken by value. *)
Definition emitted_for (cfg ps : gmap string value) : list (option string * object) :=
  snd (ExampleBlock.onEvent record_emit
         {| event := {| inputConfig := ps |}; app := {| config := cfg |} |} []).

End Shared.

Module SharedSample.

(** An installation whose configuration object is at location 0. *)
Definition world : Shared.World :=
  {| Shared.objects := {[ 0 := Sample.resolved_secret ]}; Shared.events := [] |}.

End SharedSample.

(** ** [setup.sh] *)

Module Setup.

(** The two placeholders that the script replaces. *)
Definition name_placeholder : string := "{{APP_NAME}}".
Definition description_placeholder : string := "{{APP_DESCRIPTION}}".

(** The files named on the two [sed] command lines. *)
Definition targets : list string :=
  [ "package.json"; "main.ts"; "types.ts"; "README.md" ].

(** [sed "s/pat/repl/g"] on one line, for a literal pattern (the braces of
    the placeholders are ordinary characters to [sed]) and a replacement
    without the characters that [sed] treats specially in a replacement (the
    slash, the ampersand, the backslash and the newline).  Matches are taken
    from left to right and do not overlap; replaced text is not scanned
    again.  [skip] counts the characters of a match still to be dropped. *)
Fixpoint substitute_from (pat repl : string) (skip : nat) (line : string) : string :=
  match line with
  | EmptyString => EmptyString
  | String c rest =>
      match skip with
      | S k => substitute_from pat repl k rest
      | O =>
          if String.prefix pat (String c rest)
          then repl +:+ substitute_from pat repl (String.length pat - 1) rest
          else String c (substitute_from pat repl 0 rest)
      end
  end.

Definition substitute (pat repl line : string) : string :=
  substitute_from pat repl 0 line.

(** A replacement that [sed] inserts as it is written. *)
Fixpoint lacks (c : Ascii.ascii) (s : string) : bool :=
  match s with
  | EmptyString => true
  | String a rest => negb (Ascii.eqb a c) && lacks c rest
  end.

(** No opening brace, the character both placeholders start with. *)
Definition brace_free (s : string) : bool := lacks (Ascii.ascii_of_nat 123) s.

Definition plain (repl : string) : bool :=
  lacks (Ascii.ascii_of_nat 47) repl && lacks (Ascii.ascii_of_nat 38) repl
  && lacks (Ascii.ascii_of_nat 92) repl && lacks (Ascii.ascii_of_nat 10) repl.

(** [sed -i "s/pat/repl/g" paths] for a [plain] replacement: every named
    file that exists is rewritten line by line; a named file that does not
    exist makes the command fail, after the other files were processed.  A
    file is its list of lines.  The script splices the value into the [sed]
    command, so a replacement that is not [plain] is parsed as part of the
    command (text behind a slash is read as flags of [s]); that is outside
    this definition, and every statement about it assumes [plain]. *)
Definition sed_i (pat repl : string) (paths : list string)
    (fs : gmap string (list string)) : bool * gmap string (list string) :=
  (forallb (fun p => bool_decide (is_Some (fs !! p))) paths,
   foldr (alter (List.map (substitute pat repl))) fs paths).

(** The two substitutions of one branch, under [set -e]: the second command
    runs only when the first succeeded. *)
Definition replace_placeholders (APP_NAME APP_DESCRIPTION : string)
    (fs : gmap string (list string)) : bool * gmap string (list string) :=
  let '(ok, fs1) := sed_i name_placeholder APP_NAME targets fs in
  if ok then sed_i description_placeholder APP_DESCRIPTION targets fs1
  else (false, fs1).

(** "Replace placeholders in files": the macOS branch and the Linux branch
    differ in the spelling of [-i] only. *)
Definition customize (OSTYPE APP_NAME APP_DESCRIPTION : string)
    (fs : gmap string (list string)) : bool * gmap string (list string) :=
  if String.prefix "darwin" OSTYPE
  then replace_placeholders APP_NAME APP_DESCRIPTION fs
  else replace_placeholders APP_NAME APP_DESCRIPTION fs.

(** What both substitutions do to one line of an existing target. *)
Definition customize_line (APP_NAME APP_DESCRIPTION line : string) : string :=
  substitute description_placeholder APP_DESCRIPTION
    (substitute name_placeholder APP_NAME line).


Section Script.
(** [npm install] and [npm run typecheck] are external commands: each reports
    success or failure and leaves some file system behind. *)
Context (npm_install npm_run_typecheck :
           gmap string (list string) -> bool * gmap string (list string)).

End Script.

End Setup.

(** ** Sample files for [setup.sh] *)

Module SetupSample.

Definition dq : string := String (Ascii.ascii_of_nat 34) EmptyString.

(** The two lines of [main.ts] that hold a placeholder; the backslash-n
    escapes of the second are kept as they are written in the file. *)
Definition main_name_line : string :=
  "  name: " +:+ dq +:+ "{{APP_NAME}}" +:+ dq +:+ ",".

Definition main_instructions_line : string :=
  "    " +:+ dq +:+ "{{APP_DESCRIPTION}}"
    +:+ String (Ascii.ascii_of_nat 92) "n" +:+ String (Ascii.ascii_of_nat 92) "n"
    +:+ "To install:" +:+ String (Ascii.ascii_of_nat 92) "n"
    +:+ "1. Add your API key" +:+ String (Ascii.ascii_of_nat 92) "n"
    +:+ "2. Configure the base URL if needed" +:+ String (Ascii.ascii_of_nat 92) "n"
    +:+ "3. Start using the blocks in your flows" +:+ dq +:+ ",".

(** The comment line of [blocks/index.ts] that names the app. *)
Definition index_comment_line : string := " * Block Registry for {{APP_NAME}}".

(** A checkout reduced to the lines that matter. *)
Definition checkout : gmap string (list string) :=
  {[ "package.json" := [ "{" ; "}" ];
     "main.ts" := [ main_name_line; main_instructions_line ];
     "types.ts" := [ "// {{APP_NAME}}" ];
     "README.md" := [ "# Flows App Template (Core)" ];
     "blocks/index.ts" := [ "/**"; index_comment_line ] ]}.



End SetupSample.

(** ** More sample configurations *)

Module KeySample.

(** A key that shares its first eight characters with "secret123". *)
Definition resolved_other : gmap string value :=
  {[ "apiKey" := VStr "secret12-and-more";
     "baseUrl" := VStr "https://api.example.com" ]}.

Definition resolved_null : gmap string value :=
  {[ "apiKey" := VNull; "baseUrl" := VStr "https://api.example.com" ]}.

Definition resolved_flag : gmap string value :=
  {[ "apiKey" := VBool true; "baseUrl" := VStr "https://api.example.com" ]}.

End KeySample.

(** * Properties *)

Import ExampleBlock.

(** ** Strings *)

Lemma string_substring_all (s : string) (n : nat) :
  String.length s <= n -> String.substring 0 n s = s.
Proof.
  revert n. induction s as [|c s IH]; intros [|n] Hlen; simpl in *;
    try reflexivity; try lia.
  f_equal. apply IH. lia.
Qed.

Lemma string_substring_length (s : string) (n : nat) :
  String.length (String.substring 0 n s) = Nat.min n (String.length s).
Proof.
  revert n. induction s as [|c s IH]; intros [|n]; simpl; try reflexivity.
  f_equal. apply IH.
Qed.

Lemma append_cons (c : Ascii.ascii) (s t : string) :
  String c s +:+ t = String c (s +:+ t).
Proof. reflexivity. Qed.

Lemma append_assoc (a b c : string) : (a +:+ b) +:+ c = a +:+ (b +:+ c).
Proof.
  induction a as [|x a IH]; [reflexivity|].
  rewrite !append_cons. f_equal. exact IH.
Qed.

Lemma string_substring_prefix (s : string) (n : nat) :
  exists rest, s = String.substring 0 n s +:+ rest.
Proof.
  revert n. induction s as [|c s IH]; intros [|n]; simpl.
  - exists "". reflexivity.
  - exists "". reflexivity.
  - exists (String c s). reflexivity.
  - destruct (IH n) as [rest Hrest]. exists rest.
    rewrite append_cons. f_equal. exact Hrest.
Qed.

(** [s.substring(0, n)] keeps the first [n] characters, or all of [s]. *)
Lemma substring_from_0 (s : string) (n : Z) :
  (0 <= n)%Z ->
  substring s 0 n = String.substring 0 (Nat.min (Z.to_nat n) (String.length s)) s.
Proof.
  intros Hn. unfold substring.
  replace (Z.min (Z.max 0 0) (Z.of_nat (String.length s))) with 0%Z by lia.
  f_equal; lia.
Qed.

Lemma substring_short (s : string) :
  String.length s <= 8 -> substring s 0 8 = s.
Proof.
  intros Hlen. rewrite substring_from_0 by lia.
  apply string_substring_all. lia.
Qed.

Lemma substring_length_8 (s : string) :
  String.length (substring s 0 8) = Nat.min 8 (String.length s).
Proof.
  rewrite substring_from_0 by lia. rewrite string_substring_length.
  change (Z.to_nat 8) with 8. lia.
Qed.

Lemma includes_intro (needle pre post : string) :
  includes needle (pre +:+ needle +:+ post) = true.
Proof.
  induction pre as [|c pre IH].
  - change ("" +:+ needle +:+ post) with (needle +:+ post).
    assert (Hp : String.prefix needle (needle +:+ post) = true).
    { induction needle as [|a needle IHn].
      - change ("" +:+ post) with post. destruct post; reflexivity.
      - rewrite append_cons. simpl.
        destruct (Ascii.ascii_dec a a); [exact IHn | congruence]. }
    revert Hp. generalize (needle +:+ post). intros hay Hp.
    destruct hay; cbn [includes]; rewrite Hp; reflexivity.
  - rewrite append_cons. cbn [includes]. rewrite IH. apply orb_true_r.
Qed.

(** ** The handler, case by case *)

Section HandlerFacts.
Context {S : Type} (emit : EmitCap S).

Lemma onEvent_string_key (input : EventInput) (k : string) (s : S) :
  prop (config (app input)) "apiKey" = VStr k ->
  onEvent emit input s =
  emit None
    (payload
       (processed (prop (inputConfig (event input)) "message")
                  (prop (config (app input)) "baseUrl")
                  (substring k 0 8))
       (prop (inputConfig (event input)) "message")) s.
Proof.
  intros Hk. unfold onEvent. rewrite Hk. reflexivity.
Qed.

Lemma onEvent_nullish_key (input : EventInput) (s : S) :
  prop (config (app input)) "apiKey" = VUndefined ->
  onEvent emit input s =
  (Throw (TypeError (ReadOfNullish VUndefined "substring")), s).
Proof.
  intros Hk. unfold onEvent. rewrite Hk. reflexivity.
Qed.

(** X1.  The handler consults the key only through its first eight
    characters: two invocations that differ only in what follows the eighth
    character of [apiKey] behave alike, for any emit capability and state. *)
Lemma onEvent_key_prefix_only (input1 input2 : EventInput) (k1 k2 : string) (s : S) :
  inputConfig (event input1) = inputConfig (event input2) ->
  prop (config (app input1)) "baseUrl" = prop (config (app input2)) "baseUrl" ->
  prop (config (app input1)) "apiKey" = VStr k1 ->
  prop (config (app input2)) "apiKey" = VStr k2 ->
  substring k1 0 8 = substring k2 0 8 ->
  onEvent emit input1 s = onEvent emit input2 s.
Proof.
  intros Hev Hbase Hk1 Hk2 Hpre.
  rewrite (onEvent_string_key input1 k1), (onEvent_string_key input2 k2) by assumption.
  rewrite Hev, Hbase, Hpre. reflexivity.
Qed.

(** Whatever part of the state the emit capability leaves alone, the handler
    leaves alone. *)
Lemma onEvent_frame {C : Type} (proj : S -> C) :
  (forall target p s, proj (snd (emit target p s)) = proj s) ->
  forall input s, proj (snd (onEvent emit input s)) = proj s.
Proof.
  intros Hemit input s. unfold onEvent, bind, call_substring.
  destruct (prop (config (app input)) "apiKey"); simpl; auto.
Qed.

End HandlerFacts.

(** ** The example block's handler *)

(** C10.  When the resolved configuration has no [apiKey], the handler throws
    a TypeError at [apiKey.substring] and the state is untouched, whatever the
    emit capability: no event is emitted.  When [apiKey] is a string, the
    handler does not throw by itself: its outcome is that of the single call of
    the emit capability, and with an emit capability that accepts the payload
    it completes normally with exactly one more event. *)
Theorem onEvent_apiKey_guard {S : Type} (emit : EmitCap S) (input : EventInput)
    (s : S) (log : list (option string * object)) :
  (prop (config (app input)) "apiKey" = VUndefined ->
   onEvent emit input s
   = (Throw (TypeError (ReadOfNullish VUndefined "substring")), s))
  /\ (forall k : string,
        prop (config (app input)) "apiKey" = VStr k ->
        exists p : object,
          onEvent emit input s = emit None p s
          /\ onEvent record_emit input log = (Normal tt, (log ++ [(None, p)])%list)).
Proof.
  split.
  - apply onEvent_nullish_key.
  - intros k Hk. eexists. split.
    + apply onEvent_string_key. exact Hk.
    + rewrite (onEvent_string_key record_emit input k log Hk). reflexivity.
Qed.

Lemma onEvent_apiKey_guard_witness :
  onEvent record_emit (Sample.input_hi ∅) []
  = (Throw (TypeError (ReadOfNullish VUndefined "substring")), [])
  /\ exists p : object,
       onEvent record_emit (Sample.input_hi Sample.resolved_secret) []
       = (Normal tt, [(None, p)]).
Proof.
  split.
  - apply (proj1 (onEvent_apiKey_guard record_emit (Sample.input_hi ∅) [] [])).
    reflexivity.
  - assert (Hk : prop (config (app (Sample.input_hi Sample.resolved_secret))) "apiKey"
                 = VStr "secret123") by (vm_compute; reflexivity).
    destruct (proj2 (onEvent_apiKey_guard record_emit
        (Sample.input_hi Sample.resolved_secret) [] []) "secret123" Hk)
      as [p [_ Hp]].
    exists p. exact Hp.
Defined.

(** C7.  For a string-valued message and any configuration, every payload the
    handler emits goes to the default output and conforms to the shape
    declared there: an object whose [message] and [originalMessage] are both
    strings. *)
Theorem emitted_payloads_conform (input : EventInput) (m : string) :
  prop (inputConfig (event input)) "message" = VStr m ->
  Forall (fun e : option string * object =>
            fst e = None
            /\ (exists pm : string,
                  snd e = [ ("message", VStr pm); ("originalMessage", VStr m) ])
            /\ exists d : OutputDefinition,
                 Host.default_output outputs = Some "default"
                 /\ assoc "default" outputs = Some d
                 /\ Host.conforms (out_type d) (snd e) = true)
         (snd (onEvent record_emit input [])).
Proof.
  intros Hm. unfold onEvent, bind, call_substring. rewrite Hm.
  destruct (prop (config (app input)) "apiKey"); simpl; try solve [constructor].
  constructor; [|constructor]. simpl.
  split; [reflexivity|]. split; [eexists; reflexivity|].
  eexists. split; [reflexivity|]. split; reflexivity.
Qed.

Lemma emitted_payloads_conform_witness :
  Forall (fun e : option string * object =>
            fst e = None
            /\ (exists pm : string,
                  snd e = [ ("message", VStr pm); ("originalMessage", VStr "hi") ])
            /\ exists d : OutputDefinition,
                 Host.default_output outputs = Some "default"
                 /\ assoc "default" outputs = Some d
                 /\ Host.conforms (out_type d) (snd e) = true)
         (snd (onEvent record_emit (Sample.input_hi Sample.resolved_secret) [])).
Proof.
  apply (emitted_payloads_conform (Sample.input_hi Sample.resolved_secret) "hi").
  vm_compute. reflexivity.
Defined.

(** C2.  An [apiKey] of at most eight characters is not masked at all:
    [apiKey.substring(0, 8)] is the whole key, and the emitted [message] ends
    with the full key followed by the three dots and the closing bracket. *)
Theorem short_apiKey_emitted_in_full (input : EventInput) (k : string) :
  prop (config (app input)) "apiKey" = VStr k ->
  String.length k <= 8 ->
  exists pre : string,
    onEvent record_emit input []
    = (Normal tt,
       [ (None,
          [ ("message", VStr (pre +:+ k +:+ "...)"));
                 ("originalMessage", prop (inputConfig (event input)) "message") ]) ])
    /\ includes k (pre +:+ k +:+ "...)") = true.
Proof.
  intros Hk Hlen.
  exists ("Processed: " +:+ to_string (prop (inputConfig (event input)) "message")
          +:+ " (using " +:+ to_string (prop (config (app input)) "baseUrl")
          +:+ " with API key: ").
  split; [|apply includes_intro].
  rewrite (onEvent_string_key record_emit input k [] Hk).
  rewrite substring_short by exact Hlen.
  unfold record_emit, payload, processed. simpl.
  rewrite !append_assoc. reflexivity.
Qed.

Lemma short_apiKey_emitted_in_full_witness :
  exists pre : string,
    onEvent record_emit (Sample.input_hi Sample.resolved_short) []
    = (Normal tt,
       [ (None,
          [ ("message", VStr (pre +:+ "abc12345" +:+ "...)"));
                 ("originalMessage",
                  prop (inputConfig (event (Sample.input_hi Sample.resolved_short)))
                       "message") ]) ])
    /\ includes "abc12345" (pre +:+ "abc12345" +:+ "...)") = true.
Proof.
  apply (short_apiKey_emitted_in_full (Sample.input_hi Sample.resolved_short) "abc12345").
  - vm_compute. reflexivity.
  - simpl. lia.
Defined.

(** ** Field validation *)

Import Host.

Lemma check_fields_cons (k : string) (spec : FieldSpec)
    (rest : list (string * FieldSpec)) (raw : gmap string value) :
  check_fields ((k, spec) :: rest) raw =
  match resolve_field k spec (raw !! k) with
  | inl e => (e :: fst (check_fields rest raw), snd (check_fields rest raw))
  | inr (Some v) => (fst (check_fields rest raw), <[k := v]> (snd (check_fields rest raw)))
  | inr None => check_fields rest raw
  end.
Proof.
  simpl. destruct (check_fields rest raw) as [errs resolved].
  destruct (resolve_field k spec (raw !! k)) as [e | [v|]]; reflexivity.
Qed.

(** A required field without a default that is left unset is reported. *)
Lemma check_fields_missing (schema : list (string * FieldSpec))
    (raw : gmap string value) (k : string) (spec : FieldSpec) :
  (k, spec) ∈ schema -> required spec = true -> dflt spec = None ->
  unset (raw !! k) = true ->
  MissingRequired k ∈ fst (check_fields schema raw).
Proof.
  intros Hin Hreq Hdflt Hunset.
  induction schema as [|[k' spec'] rest IH]; [inversion Hin|].
  rewrite check_fields_cons.
  apply elem_of_cons in Hin as [Heq | Hin].
  - injection Heq as <- <-.
    unfold resolve_field. rewrite Hunset, Hdflt, Hreq. simpl. left.
  - specialize (IH Hin).
    destruct (resolve_field k' spec' (raw !! k')) as [e | [v|]]; simpl;
      [right|..]; exact IH.
Qed.

(** No error at all means that every declared field resolved. *)
Lemma check_fields_no_error (schema : list (string * FieldSpec))
    (raw : gmap string value) :
  fst (check_fields schema raw) = [] <->
  forall k spec, (k, spec) ∈ schema ->
    exists ov, resolve_field k spec (raw !! k) = inr ov.
Proof.
  induction schema as [|[k' spec'] rest IH].
  - split; [intros _ k spec Hin; inversion Hin | reflexivity].
  - rewrite check_fields_cons. split.
    + intros Herrs k spec Hin.
      destruct (resolve_field k' spec' (raw !! k')) as [e | ov'] eqn:Hres;
        [discriminate Herrs|].
      assert (Hrest : fst (check_fields rest raw) = [])
        by (destruct ov'; exact Herrs).
      apply elem_of_cons in Hin as [Heq | Hin].
      * injection Heq as -> ->. exists ov'. exact Hres.
      * apply (proj1 IH Hrest). exact Hin.
    + intros Hall.
      destruct (Hall k' spec') as [ov' Hres]; [left|].
      rewrite Hres.
      assert (Hrest : fst (check_fields rest raw) = []).
      { apply IH. intros k spec Hin. apply Hall. right. exact Hin. }
      destruct ov'; exact Hrest.
Qed.

(** Only declared fields appear in the resolved map. *)
Lemma check_fields_undeclared (schema : list (string * FieldSpec))
    (raw : gmap string value) (k : string) :
  k ∉ schema.*1 -> snd (check_fields schema raw) !! k = None.
Proof.
  induction schema as [|[k' spec'] rest IH]; intros Hnot.
  - apply lookup_empty.
  - rewrite check_fields_cons. simpl in Hnot.
    apply not_elem_of_cons in Hnot as [Hne Hnot].
    destruct (resolve_field k' spec' (raw !! k')) as [e | [v|]]; simpl;
      [| rewrite lookup_insert_ne by congruence |]; apply IH; exact Hnot.
Qed.

(** A declared field is looked up as its own resolution. *)
Lemma check_fields_lookup (schema : list (string * FieldSpec))
    (raw : gmap string value) (k : string) (spec : FieldSpec) (ov : option value) :
  NoDup schema.*1 -> (k, spec) ∈ schema ->
  resolve_field k spec (raw !! k) = inr ov ->
  snd (check_fields schema raw) !! k = ov.
Proof.
  intros Hnd Hin Hres.
  induction schema as [|[k' spec'] rest IH]; [inversion Hin|].
  simpl in Hnd. apply NoDup_cons in Hnd as [Hfresh Hnd].
  rewrite check_fields_cons.
  apply elem_of_cons in Hin as [Heq | Hin].
  - injection Heq as <- <-. rewrite Hres.
    destruct ov as [v|]; simpl.
    + apply lookup_insert_eq.
    + apply check_fields_undeclared. exact Hfresh.
  - assert (Hne : k' <> k).
    { intros ->. apply Hfresh. apply list_elem_of_fmap.
      exists (k, spec). split; [reflexivity | exact Hin]. }
    destruct (resolve_field k' spec' (raw !! k')) as [e | [v|]]; simpl;
      [| rewrite lookup_insert_ne by exact Hne |]; apply IH; assumption.
Qed.

Lemma resolveConfig_inr (schema : list (string * FieldSpec))
    (raw resolved : gmap string value) :
  resolveConfig schema raw = inr resolved <->
  fst (check_fields schema raw) = [] /\ snd (check_fields schema raw) = resolved.
Proof.
  unfold resolveConfig.
  destruct (check_fields schema raw) as [[|e errs] r]; simpl; split.
  - intros [= <-]. split; reflexivity.
  - intros [_ ->]. reflexivity.
  - discriminate.
  - intros [[=] _].
Qed.

Lemma resolveConfig_inl (schema : list (string * FieldSpec))
    (raw : gmap string value) (e : FieldError) :
  e ∈ fst (check_fields schema raw) ->
  resolveConfig schema raw = inl (fst (check_fields schema raw)).
Proof.
  unfold resolveConfig.
  destruct (check_fields schema raw) as [[|e' errs] r]; simpl.
  - intros Hin. inversion Hin.
  - reflexivity.
Qed.

(** Resolving an already resolved field changes nothing. *)
Lemma resolve_field_again (k : string) (spec : FieldSpec)
    (supplied ov : option value) :
  (forall d, dflt spec = Some d -> has_type d (type spec) = true) ->
  resolve_field k spec supplied = inr ov ->
  resolve_field k spec ov = inr ov.
Proof.
  intros Hd. unfold resolve_field.
  destruct (unset supplied) eqn:Hunset.
  - destruct (dflt spec) as [d|] eqn:Hdflt.
    + intros [= <-]. specialize (Hd d eq_refl).
      assert (Hset : unset (Some d) = false)
        by (destruct (type spec), d; simpl in *; congruence).
      rewrite Hset, Hd. simpl. rewrite andb_false_r. reflexivity.
    + destruct (required spec); [discriminate|].
      intros [= <-]. reflexivity.
  - destruct supplied as [v|]; [|discriminate Hunset].
    destruct (has_type v (type spec)) eqn:Hty; simpl; [|discriminate].
    destruct (required spec && negb (bool_decide (is_Some (dflt spec))) && is_empty v)
      eqn:Hemp; [discriminate|].
    intros [= <-]. rewrite Hunset, Hty. simpl. rewrite Hemp. reflexivity.
Qed.

(** A resolved configuration is a fixed point of resolution. *)
Lemma resolveConfig_fixed_point (schema : list (string * FieldSpec))
    (raw resolved : gmap string value) :
  NoDup schema.*1 -> defaults_typed schema ->
  resolveConfig schema raw = inr resolved ->
  resolveConfig schema resolved = inr resolved.
Proof.
  intros Hnd Hty Hres.
  apply resolveConfig_inr in Hres as [Herrs Hsnd].
  pose proof (proj1 (check_fields_no_error schema raw) Herrs) as Hall.
  assert (Hagain : forall k spec, (k, spec) ∈ schema ->
            resolve_field k spec (resolved !! k) = inr (resolved !! k)).
  { intros k spec Hin. destruct (Hall k spec Hin) as [ov Hov].
    rewrite <- Hsnd at 1 2.
    rewrite (check_fields_lookup schema raw k spec ov Hnd Hin Hov).
    apply (resolve_field_again k spec (raw !! k)); [|exact Hov].
    intros d Hd. exact (Hty k spec d Hin Hd). }
  apply resolveConfig_inr. split.
  - apply check_fields_no_error. intros k spec Hin.
    exists (resolved !! k). apply Hagain. exact Hin.
  - apply map_eq. intros k.
    destruct (decide (k ∈ schema.*1)) as [Hk | Hk].
    + apply list_elem_of_fmap in Hk as [[k' spec] [-> Hin]]. simpl.
      apply (check_fields_lookup schema resolved k' spec); auto.
    + rewrite check_fields_undeclared by exact Hk.
      rewrite <- Hsnd. symmetry. apply check_fields_undeclared. exact Hk.
Qed.

(** ** Configuration resolution and installation *)

Lemma main_config_keys : NoDup Main.config.*1.
Proof. apply (bool_decide_unpack _). vm_compute. exact I. Qed.

Lemma main_config_defaults_typed : defaults_typed Main.config.
Proof.
  intros k spec d Hin Hd. unfold Main.config in Hin.
  apply elem_of_cons in Hin as [Heq | Hin].
  - injection Heq as -> ->. discriminate Hd.
  - apply elem_of_cons in Hin as [Heq | Hin]; [|inversion Hin].
    injection Heq as -> ->. injection Hd as <-. reflexivity.
Qed.

(** Once startup has failed, no delivery changes anything. *)
Lemma run_not_started (a : AppDefinition State) (ds : list Delivery) (h : State)
    (errs : list FieldError) :
  status h = NotStarted errs -> run a ds h = h.
Proof.
  intros Hst. induction ds as [|d ds IH]; [reflexivity|].
  simpl. unfold dispatch. rewrite Hst. simpl. exact IH.
Qed.

(** C4.  For any app and any declared configuration field that is required
    and has no default, an installation that omits the field ends in a
    configuration error that names the field; the app is not started, every
    delivery is refused with the state unchanged, and so no handler execution
    ever starts and no event is ever emitted. *)
Theorem missing_required_config_is_fatal (a : AppDefinition State)
    (raw : gmap string value) (k : string) (spec : FieldSpec) :
  (k, spec) ∈ app_fields a -> required spec = true -> dflt spec = None ->
  raw !! k = None ->
  exists errs : list FieldError,
    MissingRequired k ∈ errs
    /\ resolveConfig (app_fields a) raw = inl errs
    /\ status (install a raw) = NotStarted errs
    /\ (forall blockId inputId ps,
          dispatch a blockId inputId ps (install a raw)
          = (AppNotRunning, install a raw))
    /\ forall ds : list Delivery,
         run a ds (install a raw) = install a raw
         /\ started (run a ds (install a raw)) = 0
         /\ emitted (run a ds (install a raw)) = [].
Proof.
  intros Hin Hreq Hdflt Hraw.
  assert (Hmiss : MissingRequired k ∈ fst (check_fields (app_fields a) raw)).
  { apply (check_fields_missing _ _ k spec); auto. rewrite Hraw. reflexivity. }
  pose proof (resolveConfig_inl _ _ _ Hmiss) as Hres.
  assert (Hst : status (install a raw)
                = NotStarted (fst (check_fields (app_fields a) raw))).
  { unfold install. simpl. rewrite Hres. reflexivity. }
  exists (fst (check_fields (app_fields a) raw)).
  split; [exact Hmiss|]. split; [exact Hres|]. split; [exact Hst|]. split.
  - intros blockId inputId ps. unfold dispatch. rewrite Hst. reflexivity.
  - intros ds. rewrite (run_not_started a ds _ _ Hst).
    split; [reflexivity|]. split; reflexivity.
Qed.

Lemma missing_required_config_is_fatal_witness :
  exists errs : list FieldError,
    MissingRequired "apiKey" ∈ errs
    /\ resolveConfig (app_fields (Main.app State)) ∅ = inl errs
    /\ status (install (Main.app State) ∅) = NotStarted errs
    /\ (forall blockId inputId ps,
          dispatch (Main.app State) blockId inputId ps (install (Main.app State) ∅)
          = (AppNotRunning, install (Main.app State) ∅))
    /\ forall ds : list Delivery,
         run (Main.app State) ds (install (Main.app State) ∅)
         = install (Main.app State) ∅
         /\ started (run (Main.app State) ds (install (Main.app State) ∅)) = 0
         /\ emitted (run (Main.app State) ds (install (Main.app State) ∅)) = [].
Proof.
  apply (missing_required_config_is_fatal (Main.app State) ∅ "apiKey"
           Sample.apiKey_spec).
  - left.
  - reflexivity.
  - reflexivity.
  - reflexivity.
Defined.

(** C5.  A declared optional field with a default that the installer omits
    resolves to exactly that default, whatever else is supplied.  When the
    resolution of the raw map succeeds, the resolved map holds the default
    under the field's key, a second resolution of the same raw map gives the
    same map, and the resolved map resolves to itself. *)
Theorem optional_default_resolves (schema : list (string * FieldSpec))
    (raw : gmap string value) (k : string) (spec : FieldSpec) (d : value) :
  NoDup schema.*1 -> (k, spec) ∈ schema ->
  required spec = false -> dflt spec = Some d -> raw !! k = None ->
  resolve_field k spec (raw !! k) = inr (Some d)
  /\ forall resolved : gmap string value,
       resolveConfig schema raw = inr resolved ->
       resolved !! k = Some d
       /\ (forall again, resolveConfig schema raw = inr again -> again = resolved)
       /\ (defaults_typed schema -> resolveConfig schema resolved = inr resolved).
Proof.
  intros Hnd Hin Hreq Hdflt Hraw.
  assert (Hfield : resolve_field k spec (raw !! k) = inr (Some d)).
  { unfold resolve_field. rewrite Hraw, Hdflt. reflexivity. }
  split; [exact Hfield|].
  intros resolved Hres. split; [|split].
  - apply resolveConfig_inr in Hres as [_ <-].
    apply (check_fields_lookup schema raw k spec); assumption.
  - intros again Hagain. congruence.
  - intros Hty. apply (resolveConfig_fixed_point schema raw); assumption.
Qed.

Lemma optional_default_resolves_witness :
  resolveConfig Main.config Sample.raw_secret
  = inr Sample.resolved_secret
  /\ Sample.resolved_secret !! "baseUrl" = Some (VStr "https://api.example.com")
  /\ resolveConfig Main.config Sample.resolved_secret = inr Sample.resolved_secret.
Proof.
  assert (Hres : resolveConfig Main.config Sample.raw_secret
                 = inr Sample.resolved_secret) by (vm_compute; reflexivity).
  destruct (optional_default_resolves Main.config Sample.raw_secret
              "baseUrl" Sample.baseUrl_spec (VStr "https://api.example.com")
              main_config_keys) as [_ Hall].
  - right. left.
  - reflexivity.
  - reflexivity.
  - vm_compute. reflexivity.
  - destruct (Hall _ Hres) as [Hk [_ Hfix]].
    split; [exact Hres|]. split; [exact Hk|].
    apply Hfix. exact main_config_defaults_typed.
Defined.

(** ** Dispatch *)

(** A required parameter without a default that the event omits stops the
    dispatch at validation, for any app, block and input. *)
Lemma dispatch_missing_required (a : AppDefinition State) (blockId inputId : string)
    (b : AppBlock State) (i : InputDefinition State) (ps resolved : gmap string value)
    (h : State) (k : string) (spec : FieldSpec) :
  status h = Running resolved ->
  assoc blockId (app_blocks a) = Some b ->
  assoc inputId (blk_inputs b) = Some i ->
  (k, spec) ∈ in_config i -> required spec = true -> dflt spec = None ->
  ps !! k = None ->
  exists errs : list FieldError,
    MissingRequired k ∈ errs
    /\ dispatch a blockId inputId ps h
       = (InputValidationError errs, with_reported h (InputValidationError errs)).
Proof.
  intros Hst Hb Hi Hin Hreq Hdflt Hps.
  assert (Hmiss : MissingRequired k ∈ fst (check_fields (in_config i) ps)).
  { apply (check_fields_missing _ _ k spec); auto. rewrite Hps. reflexivity. }
  exists (fst (check_fields (in_config i) ps)). split; [exact Hmiss|].
  unfold dispatch, validateInput. rewrite Hst, Hb, Hi.
  rewrite (resolveConfig_inl _ _ _ Hmiss). reflexivity.
Qed.

(** C3.  An event for the example block's default input that omits [message]
    is rejected with an input validation error naming [message]; the only
    change of state is the reported failure: no handler execution is started
    and no event is emitted. *)
Theorem missing_message_rejected (ps resolved : gmap string value) (h : State) :
  status h = Running resolved ->
  ps !! "message" = None ->
  dispatch (Main.app State) "example" "default" ps h
  = (InputValidationError [MissingRequired "message"],
     with_reported h (InputValidationError [MissingRequired "message"]))
  /\ started (snd (dispatch (Main.app State) "example" "default" ps h)) = started h
  /\ emitted (snd (dispatch (Main.app State) "example" "default" ps h)) = emitted h.
Proof.
  intros Hst Hps.
  assert (Hd : dispatch (Main.app State) "example" "default" ps h
               = (InputValidationError [MissingRequired "message"],
                  with_reported h (InputValidationError [MissingRequired "message"]))).
  { unfold dispatch. rewrite Hst. simpl.
    unfold validateInput, resolveConfig, input_config, check_fields, resolve_field.
    rewrite Hps. reflexivity. }
  rewrite Hd. split; [reflexivity|]. split; reflexivity.
Qed.

Lemma missing_message_rejected_witness :
  dispatch (Main.app State) "example" "default" ∅
    (install (Main.app State) Sample.raw_secret)
  = (InputValidationError [MissingRequired "message"],
     with_reported (install (Main.app State) Sample.raw_secret)
       (InputValidationError [MissingRequired "message"]))
  /\ started (snd (dispatch (Main.app State) "example" "default" ∅
                     (install (Main.app State) Sample.raw_secret))) = 0
  /\ emitted (snd (dispatch (Main.app State) "example" "default" ∅
                     (install (Main.app State) Sample.raw_secret))) = [].
Proof.
  apply (missing_message_rejected ∅ Sample.resolved_secret
           (install (Main.app State) Sample.raw_secret)).
  - vm_compute. reflexivity.
  - reflexivity.
Defined.

(** C1.  With [apiKey] set to "secret123" and [baseUrl] left unset, the
    configuration resolves with [baseUrl] at its default, and an event with
    [message] "hi" on the example block's default input succeeds with exactly
    one emitted event, on the default output, whose [originalMessage] is "hi"
    and whose [message] contains "Processed: hi". *)
Theorem end_to_end_hi :
  status (install (Main.app State) Sample.raw_secret)
  = Running Sample.resolved_secret
  /\ Sample.resolved_secret !! "baseUrl" = Some (VStr "https://api.example.com")
  /\ exists msg : string,
       dispatch (Main.app State) "example" "default" Sample.message_hi
         (install (Main.app State) Sample.raw_secret)
       = (Succeeded,
          {| status := Running Sample.resolved_secret;
             emitted :=
               [ {| em_block := "example"; em_output := "default";
                    em_payload :=
                      [ ("message", VStr msg); ("originalMessage", VStr "hi") ] |} ];
             started := 1;
             reported := [] |})
       /\ includes "Processed: hi" msg = true
       /\ exists rest : string, msg = "Processed: hi" +:+ rest.
Proof.
  split; [vm_compute; reflexivity|]. split; [vm_compute; reflexivity|].
  exists "Processed: hi (using https://api.example.com with API key: secret12...)".
  split; [vm_compute; reflexivity|]. split; [vm_compute; reflexivity|].
  exists " (using https://api.example.com with API key: secret12...)". reflexivity.
Qed.

(** The same scenario with an [apiKey] of eight characters: the emitted
    [message] spells the key out in full. *)
Example end_to_end_short_key :
  snd (dispatch (Main.app State) "example" "default" Sample.message_hi
         (install (Main.app State) {[ "apiKey" := VStr "abc12345" ]}))
  = {| status := Running Sample.resolved_short;
       emitted :=
         [ {| em_block := "example"; em_output := "default";
              em_payload :=
                [ ("message",
                   VStr "Processed: hi (using https://api.example.com with API key: abc12345...)");
                  ("originalMessage", VStr "hi") ] |} ];
       started := 1;
       reported := [] |}.
Proof. vm_compute. reflexivity. Qed.

(** ** Emission *)

Lemma onEvent_is_body {S : Type} (em : EmitCap S) (input : EventInput) (s : S) :
  onEvent em input s = perform em (onEvent_body input) s.
Proof.
  unfold onEvent, onEvent_body, bind, call_substring.
  destruct (prop (config (app input)) "apiKey") as [| |b|k]; simpl; try reflexivity.
  destruct (em None _ s) as [[[]|e] s']; reflexivity.
Qed.

Lemma emit_undeclared (blockId : string) (outs : list (string * OutputDefinition))
    (o : string) (p : object) (h : State) :
  assoc o outs = None ->
  emit blockId outs (Some o) p h
  = (Throw (EmitError (UndeclaredOutput o)),
     with_reported h (EmissionViolation (UndeclaredOutput o))).
Proof. intros Hno. unfold emit. rewrite Hno. reflexivity. Qed.

(** What one call of the emit capability does to the state: it reports
    nothing or one violation, and touches neither the status nor the count of
    started executions. *)
Lemma emit_reports (blockId : string) (outs : list (string * OutputDefinition))
    (target : option string) (p : object) (h : State) :
  status (snd (emit blockId outs target p h)) = status h
  /\ started (snd (emit blockId outs target p h)) = started h
  /\ (reported (snd (emit blockId outs target p h)) = reported h
      \/ exists v, reported (snd (emit blockId outs target p h))
                   = reported h ++ [EmissionViolation v]).
Proof.
  unfold emit, violation.
  destruct (match target with Some o => Some o | None => default_output outs end)
    as [o|]; [|simpl; eauto].
  destruct (assoc o outs) as [d|]; [|simpl; eauto].
  destruct (conforms (out_type d) p); simpl; eauto.
Qed.

(** The run of a body only adds violations to the reports, and it adds the
    violation of every call on an undeclared output. *)
Lemma perform_reports (blockId : string) (outs : list (string * OutputDefinition))
    (o : string) (b : Body) (h : State) :
  assoc o outs = None ->
  exists news : list Outcome,
    reported (snd (perform (emit blockId outs) b h)) = reported h ++ news
    /\ Forall is_violation news
    /\ (emits_on (emit blockId outs) o b h = true ->
        EmissionViolation (UndeclaredOutput o) ∈ news).
Proof.
  intros Hno. revert h.
  induction b as [|e|target p next IH]; intros h.
  - exists []. simpl. rewrite app_nil_r. repeat split; [constructor | discriminate].
  - exists []. simpl. rewrite app_nil_r. repeat split; [constructor | discriminate].
  - cbn [perform emits_on].
    destruct (IH (fst (emit blockId outs target p h))
                 (snd (emit blockId outs target p h))) as [news [Hrep [Hall Hin]]].
    destruct (decide (target = Some o)) as [-> | Hne].
    + rewrite (emit_undeclared blockId outs o p h Hno) in *. simpl in *.
      exists (EmissionViolation (UndeclaredOutput o) :: news).
      split; [rewrite Hrep, <- app_assoc; reflexivity|].
      split; [constructor; [exact I | exact Hall]|].
      intros _. left.
    + rewrite (bool_decide_eq_false_2 _ Hne). cbn [orb].
      destruct (emit_reports blockId outs target p h) as [_ [_ [Hsame | [v Hv]]]].
      * exists news. rewrite Hrep, Hsame. repeat split; assumption.
      * exists (EmissionViolation v :: news).
        split; [rewrite Hrep, Hv, <- app_assoc; reflexivity|].
        split; [constructor; [exact I | exact Hall]|].
        intros Hon. right. apply Hin. exact Hon.
Qed.

Lemma first_violation_found (news : list Outcome) (v : emit_error) :
  Forall is_violation news -> EmissionViolation v ∈ news ->
  exists v', first_violation news = Some v'.
Proof.
  intros Hall Hin. destruct news as [|r news]; [inversion Hin|].
  apply Forall_cons in Hall as [Hr _].
  destruct r; try contradiction. eexists. reflexivity.
Qed.

(** C6.  For any block and any output identifier that the block does not
    declare, the emit capability throws for every payload and state, records
    no event and reports the violation.  Every invocation whose handler
    calls the emit capability on such an output fails, whatever the payloads
    are and whatever the handler does with the error it is thrown (it may let
    it through, catch it, or go on emitting): the outcome of the invocation
    is a handler error, no event of the invocation is kept, and both the
    violation and the failure are reported to the host.  The handler is any
    handler that acts on the host through its emit capability only, that is,
    whose run is the run of a body. *)
Theorem emit_undeclared_output_fails (blockId : string) (b : AppBlock State)
    (o : string) :
  assoc o (blk_outputs b) = None ->
  (forall (p : object) (h : State),
     emit blockId (blk_outputs b) (Some o) p h
     = (Throw (EmitError (UndeclaredOutput o)),
        with_reported h (EmissionViolation (UndeclaredOutput o))))
  /\ forall (i : InputDefinition State) (body : Body)
       (input : EventInput) (h : State),
       (forall (em : EmitCap State) (s : State),
          in_onEvent i em input s = perform em body s) ->
       emits_on (emit blockId (blk_outputs b)) o body
         (with_started h (S (started h))) = true ->
       let r := invoke blockId b i input h in
       (exists e, fst r = HandlerError e
                  /\ last (reported (snd r)) = Some (HandlerError e))
       /\ emitted (snd r) = emitted h
       /\ EmissionViolation (UndeclaredOutput o) ∈ reported (snd r).
Proof.
  intros Hno. split; [intros p h; apply emit_undeclared; exact Hno|].
  intros i body input h Hbody Hon. unfold invoke. rewrite Hbody.
  set (h1 := with_started h (S (started h))) in *.
  destruct (perform_reports blockId (blk_outputs b) o body h1 Hno)
    as [news [Hrep [Hall Hin]]].
  specialize (Hin Hon).
  destruct (first_violation_found news _ Hall Hin) as [v' Hv'].
  rewrite Hrep, drop_app_length, Hv'.
  assert (Hmem : forall e,
            EmissionViolation (UndeclaredOutput o)
            ∈ (reported h1 ++ news) ++ [HandlerError e]).
  { intros e. apply elem_of_app. left. apply elem_of_app. right. exact Hin. }
  destruct (fst (perform (emit blockId (blk_outputs b)) body h1))
    as [u|e]; simpl; rewrite Hrep.
  - split; [|split; [reflexivity | apply Hmem]].
    eexists. split; [reflexivity | apply last_snoc].
  - split; [|split; [reflexivity | apply Hmem]].
    eexists. split; [reflexivity | apply last_snoc].
Qed.

Lemma emit_undeclared_output_fails_witness :
  (forall (p : object) (h : State),
     emit "example" (blk_outputs (exampleBlock State)) (Some "audit") p h
     = (Throw (EmitError (UndeclaredOutput "audit")),
        with_reported h (EmissionViolation (UndeclaredOutput "audit"))))
  /\ invoke "example" (exampleBlock State)
       (EmitSample.with_body EmitSample.swallowing)
       (Sample.input_hi Sample.resolved_secret)
       (install (Main.app State) Sample.raw_secret)
     = (HandlerError (EmitError (UndeclaredOutput "audit")),
        {| status := Running Sample.resolved_secret;
           emitted := [];
           started := 1;
           reported := [ EmissionViolation (UndeclaredOutput "audit");
                         HandlerError (EmitError (UndeclaredOutput "audit")) ] |})
  /\ emitted (snd (invoke "example" (exampleBlock State) EmitSample.direct
                     (Sample.input_hi Sample.resolved_secret)
                     (install (Main.app State) Sample.raw_secret))) = []
  /\ exists e,
       fst (invoke "example" (exampleBlock State) EmitSample.direct
              (Sample.input_hi Sample.resolved_secret)
              (install (Main.app State) Sample.raw_secret)) = HandlerError e.
Proof.
  destruct (emit_undeclared_output_fails "example" (exampleBlock State) "audit"
              eq_refl) as [Hemit Hinvoke].
  split; [exact Hemit|]. split; [vm_compute; reflexivity|].
  destruct (Hinvoke EmitSample.direct
              (EmitSample.misrouting (Sample.input_hi Sample.resolved_secret))
              (Sample.input_hi Sample.resolved_secret)
              (install (Main.app State) Sample.raw_secret))
    as [[e [He _]] [Hkept _]].
  - intros em s. simpl. destruct (em _ _ s) as [[[]|e] s']; reflexivity.
  - reflexivity.
  - split; [exact Hkept|]. exists e. exact He.
Defined.

(** ** The configuration object is never mutated *)

(** On objects that exist, the handler reading through references is the
    handler reading the same maps by value. *)
Lemma onEvent_by_reference (em : EmitCap Shared.World) (input : Shared.InputRef)
    (ps cfg : gmap string value) (w : Shared.World) :
  Shared.objects w !! Shared.inputConfig_at input = Some ps ->
  Shared.objects w !! Shared.config_at input = Some cfg ->
  Shared.onEvent em input w
  = onEvent em {| event := {| inputConfig := ps |}; app := {| config := cfg |} |} w.
Proof.
  intros Hps Hcfg. unfold Shared.onEvent, Shared.get_prop, onEvent, bind.
  rewrite Hps. cbv beta iota. rewrite Hcfg. cbv beta iota. rewrite Hcfg.
  reflexivity.
Qed.

(** The handler assigns to no property of any object: it leaves all objects
    as they are, whatever its references point to, when its emit capability
    does. *)
Lemma onEvent_writes_nothing (em : EmitCap Shared.World) (input : Shared.InputRef)
    (w : Shared.World) :
  (forall target p s, Shared.objects (snd (em target p s)) = Shared.objects s) ->
  Shared.objects (snd (Shared.onEvent em input w)) = Shared.objects w.
Proof.
  intros Hem. unfold Shared.onEvent, Shared.get_prop, bind, call_substring.
  destruct (Shared.objects w !! Shared.inputConfig_at input) as [ps|];
    [|reflexivity].
  cbv beta iota.
  destruct (Shared.objects w !! Shared.config_at input) as [cfg|] eqn:Hcfg;
    [|reflexivity].
  cbv beta iota. rewrite Hcfg. cbv beta iota.
  destruct (prop cfg "apiKey"); simpl; auto.
Qed.

Lemma alloc_fresh (o : gmap string value) (w : Shared.World) :
  Shared.objects w !! fst (Shared.alloc o w) = None.
Proof.
  unfold Shared.alloc. simpl. apply not_elem_of_dom. apply is_fresh.
Qed.

(** One delivery to the handler of the template: the parameters object is
    new, every object that existed is as it was, and the events added are
    those that the configuration found in the configuration object gives. *)
Lemma deliver_onEvent (c : nat) (cfg ps : gmap string value) (w : Shared.World) :
  Shared.objects w !! c = Some cfg ->
  Shared.objects (Shared.deliver Shared.onEvent c ps w)
  = <[fst (Shared.alloc ps w) := ps]> (Shared.objects w)
  /\ Shared.events (Shared.deliver Shared.onEvent c ps w)
     = Shared.events w ++ Shared.emitted_for cfg ps.
Proof.
  intros Hc. unfold Shared.deliver.
  assert (Hne : fst (Shared.alloc ps w) <> c).
  { intros Heq. pose proof (alloc_fresh ps w) as Hfresh.
    rewrite Heq, Hc in Hfresh. discriminate Hfresh. }
  rewrite (onEvent_by_reference _ _ ps cfg).
  - unfold Shared.emitted_for, onEvent, bind, call_substring. cbn [app config].
    destruct (prop cfg "apiKey"); simpl; rewrite ?app_nil_r; split; reflexivity.
  - simpl. apply lookup_insert_eq.
  - simpl. rewrite lookup_insert_ne by exact Hne. exact Hc.
Qed.

(** C9.  The configuration object is handed to every invocation by reference
    and is not protected against assignment, and yet no invocation of the
    template's handler mutates it.  The handler assigns to no property of any
    object; hence, after any sequence of deliveries, with any parameters, the
    configuration object of the installation holds what it held before, and
    every invocation has observed that same configuration: the events of the
    lifetime are, delivery by delivery, those that the initial configuration
    gives. *)
Theorem configuration_object_unchanged (c : nat) (cfg : gmap string value)
    (dss : list (gmap string value)) (w : Shared.World) :
  Shared.objects w !! c = Some cfg ->
  Shared.objects (Shared.run Shared.onEvent c dss w) !! c = Some cfg
  /\ Shared.events (Shared.run Shared.onEvent c dss w)
     = Shared.events w ++ concat (List.map (Shared.emitted_for cfg) dss)
  /\ forall (input : Shared.InputRef) (w0 : Shared.World),
       Shared.objects (snd (Shared.onEvent Shared.emit input w0))
       = Shared.objects w0.
Proof.
  intros Hc. split; [|split].
  - revert w Hc. induction dss as [|ps dss IH]; intros w Hc; [exact Hc|].
    simpl. apply IH.
    destruct (deliver_onEvent c cfg ps w Hc) as [Hobj _]. rewrite Hobj.
    rewrite lookup_insert_ne; [exact Hc|].
    intros Heq. pose proof (alloc_fresh ps w) as Hfresh.
    rewrite Heq, Hc in Hfresh. discriminate Hfresh.
  - revert w Hc. induction dss as [|ps dss IH]; intros w Hc.
    + simpl. rewrite app_nil_r. reflexivity.
    + destruct (deliver_onEvent c cfg ps w Hc) as [Hobj Hev].
      simpl. rewrite IH.
      * rewrite Hev, <- app_assoc. reflexivity.
      * rewrite Hobj. rewrite lookup_insert_ne; [exact Hc|].
        intros Heq. pose proof (alloc_fresh ps w) as Hfresh.
        rewrite Heq, Hc in Hfresh. discriminate Hfresh.
  - intros input w0. apply onEvent_writes_nothing. intros target p s. reflexivity.
Qed.

Lemma configuration_object_unchanged_witness :
  Shared.objects
    (Shared.run Shared.onEvent 0 [ Sample.message_hi; ∅; Sample.message_hi ]
       SharedSample.world) !! 0
  = Some Sample.resolved_secret
  /\ length (Shared.events
               (Shared.run Shared.onEvent 0 [ Sample.message_hi; ∅; Sample.message_hi ]
                  SharedSample.world)) = 3.
Proof.
  destruct (configuration_object_unchanged 0 Sample.resolved_secret
              [ Sample.message_hi; ∅; Sample.message_hi ] SharedSample.world)
    as [Hobj [Hev _]].
  - vm_compute. reflexivity.
  - split; [exact Hobj|]. rewrite Hev. vm_compute. reflexivity.
Defined.

(** The statement is about the body of the handler: a handler that assigns
    to [input.app.config.apiKey] leaves the configuration object changed, and
    the configuration that later invocations observe with it. *)
Example assigning_handler_mutates :
  Shared.objects
    (Shared.run Shared.assigning 0 [ Sample.message_hi ] SharedSample.world) !! 0
  = Some (<["apiKey" := VStr "rotated"]> Sample.resolved_secret)
  /\ Shared.objects
       (Shared.run Shared.assigning 0 [ Sample.message_hi ] SharedSample.world) !! 0
     <> Some Sample.resolved_secret.
Proof.
  assert (H : Shared.objects
                (Shared.run Shared.assigning 0 [ Sample.message_hi ]
                   SharedSample.world) !! 0
              = Some (<["apiKey" := VStr "rotated"]> Sample.resolved_secret))
    by (vm_compute; reflexivity).
  split; [exact H|]. rewrite H. intros Heq.
  apply (f_equal (fun o : option (gmap string value) =>
                    match o with Some m => m !! "apiKey" | None => None end))
    in Heq.
  vm_compute in Heq. discriminate Heq.
Qed.

(** With a string [apiKey] and a string [message], an invocation of the
    example block succeeds and appends exactly one event on the default
    output. *)
Lemma invoke_example_succeeds (input : EventInput) (k m : string) (h : State)
    (i : InputDefinition State) :
  assoc "default" (blk_inputs (exampleBlock State)) = Some i ->
  prop (config (app input)) "apiKey" = VStr k ->
  prop (inputConfig (event input)) "message" = VStr m ->
  invoke "example" (exampleBlock State) i input h
  = (Succeeded,
     {| status := status h;
        emitted :=
          emitted h ++
          [ {| em_block := "example"; em_output := "default";
               em_payload :=
                 payload (processed (VStr m) (prop (config (app input)) "baseUrl")
                                    (substring k 0 8)) (VStr m) |} ];
        started := S (started h);
        reported := reported h |}).
Proof.
  intros [= <-] Hk Hm. unfold invoke. cbn [in_onEvent].
  rewrite (onEvent_string_key _ input k _ Hk), Hm.
  unfold emit. simpl. rewrite drop_all. reflexivity.
Qed.

(** * Further properties of the handler *)

Lemma onEvent_key_prefix_only_witness :
  onEvent record_emit (Sample.input_hi Sample.resolved_secret) []
  = onEvent record_emit (Sample.input_hi KeySample.resolved_other) [].
Proof.
  apply (onEvent_key_prefix_only record_emit
           (Sample.input_hi Sample.resolved_secret)
           (Sample.input_hi KeySample.resolved_other)
           "secret123" "secret12-and-more" []).
  - reflexivity.
  - vm_compute. reflexivity.
  - vm_compute. reflexivity.
  - vm_compute. reflexivity.
  - vm_compute. reflexivity.
Defined.

(** X2.  The handler completes normally exactly when [apiKey] is a string.
    For every other value of [apiKey] ([undefined], [null], a boolean) it
    throws a TypeError and leaves the state as it was, whatever the emit
    capability: nothing is emitted. *)
Theorem onEvent_completes_iff_string_key (input : EventInput)
    (log : list (option string * object)) :
  (fst (onEvent record_emit input log) = Normal tt
   <-> exists k : string, prop (config (app input)) "apiKey" = VStr k)
  /\ ((forall k : string, prop (config (app input)) "apiKey" <> VStr k) ->
      exists te : type_error,
        forall (S : Type) (emit : EmitCap S) (s : S),
          onEvent emit input s = (Throw (TypeError te), s)).
Proof.
  split.
  - unfold onEvent, bind, call_substring.
    destruct (prop (config (app input)) "apiKey") as [| |b|k]; simpl; split;
      try discriminate; try (intros [k' Hk']; discriminate Hk').
    + intros _. exists k. reflexivity.
    + intros _. reflexivity.
  - intros Hnot. unfold onEvent, bind, call_substring.
    destruct (prop (config (app input)) "apiKey") as [| |b|k].
    + eexists. intros S emit s. reflexivity.
    + eexists. intros S emit s. reflexivity.
    + eexists. intros S emit s. reflexivity.
    + exfalso. apply (Hnot k). reflexivity.
Qed.

Lemma onEvent_completes_iff_string_key_witness :
  (exists te : type_error,
     forall (S : Type) (emit : EmitCap S) (s : S),
       onEvent emit (Sample.input_hi KeySample.resolved_null) s
       = (Throw (TypeError te), s))
  /\ exists te : type_error,
       forall (S : Type) (emit : EmitCap S) (s : S),
         onEvent emit (Sample.input_hi KeySample.resolved_flag) s
         = (Throw (TypeError te), s).
Proof.
  split.
  - apply (proj2 (onEvent_completes_iff_string_key
                    (Sample.input_hi KeySample.resolved_null) [])).
    intros k. vm_compute. discriminate.
  - apply (proj2 (onEvent_completes_iff_string_key
                    (Sample.input_hi KeySample.resolved_flag) [])).
    intros k. vm_compute. discriminate.
Defined.

(** X3.  One run of the handler keeps every event recorded before it and adds
    at most one, and that one is addressed to the default output: the handler
    never names an output. *)
Theorem onEvent_emits_at_most_once (input : EventInput)
    (log : list (option string * object)) :
  exists new : list (option string * object),
    snd (onEvent record_emit input log) = (log ++ new)%list
    /\ length new <= 1
    /\ Forall (fun e => fst e = None) new.
Proof.
  unfold onEvent, bind, call_substring.
  destruct (prop (config (app input)) "apiKey") as [| |b|k]; simpl.
  - exists []. rewrite app_nil_r. repeat split; [simpl; lia | constructor].
  - exists []. rewrite app_nil_r. repeat split; [simpl; lia | constructor].
  - exists []. rewrite app_nil_r. repeat split; [simpl; lia | constructor].
  - eexists [_]. split; [reflexivity|]. split; [simpl; lia|].
    constructor; [reflexivity | constructor].
Qed.

(** X4.  The handler reads [message] from the event parameters and [apiKey]
    and [baseUrl] from the configuration, and nothing else: setting any other
    parameter or any other configuration key changes nothing of its
    behaviour. *)
Theorem onEvent_ignores_other_keys {S : Type} (emit : EmitCap S)
    (ps cfg : gmap string value) (kp kc : string) (vp vc : value) (s : S) :
  kp <> "message" -> kc <> "apiKey" -> kc <> "baseUrl" ->
  onEvent emit {| event := {| inputConfig := <[kp := vp]> ps |};
                  app := {| config := <[kc := vc]> cfg |} |} s
  = onEvent emit {| event := {| inputConfig := ps |};
                    app := {| config := cfg |} |} s.
Proof.
  intros Hp Hk Hb. unfold onEvent, prop. simpl.
  rewrite !lookup_insert_ne by congruence. reflexivity.
Qed.

Lemma onEvent_ignores_other_keys_witness :
  onEvent record_emit
    {| event := {| inputConfig := <["debug" := VBool true]> Sample.message_hi |};
       app := {| config := <["region" := VStr "eu"]> Sample.resolved_secret |} |} []
  = onEvent record_emit
      {| event := {| inputConfig := Sample.message_hi |};
         app := {| config := Sample.resolved_secret |} |} [].
Proof.
  apply (onEvent_ignores_other_keys record_emit Sample.message_hi
           Sample.resolved_secret "debug" "region" (VBool true) (VStr "eu") []);
    discriminate.
Defined.

(** X5.  With an [apiKey] of more than eight characters the emitted text
    carries exactly the first eight characters of the key, followed by the
    three dots: the key is that fragment followed by a non-empty rest that
    the payload does not show. *)
Theorem long_apiKey_prefix_only (input : EventInput) (k : string)
    (log : list (option string * object)) :
  prop (config (app input)) "apiKey" = VStr k ->
  8 < String.length k ->
  exists frag rest : string,
    k = frag +:+ rest
    /\ String.length frag = 8
    /\ rest <> ""
    /\ onEvent record_emit input log
       = (Normal tt,
          (log ++
           [ (None,
              payload
                (processed (prop (inputConfig (event input)) "message")
                           (prop (config (app input)) "baseUrl") frag)
                (prop (inputConfig (event input)) "message")) ])%list).
Proof.
  intros Hk Hlen.
  destruct (string_substring_prefix k (Nat.min (Z.to_nat 8) (String.length k)))
    as [rest Hrest].
  rewrite <- substring_from_0 in Hrest by lia.
  exists (substring k 0 8), rest.
  assert (Hfrag : String.length (substring k 0 8) = 8)
    by (rewrite substring_length_8; lia).
  split; [exact Hrest|]. split; [exact Hfrag|]. split.
  - intros ->.
    assert (Happ : forall a : string, String.length (a +:+ "") = String.length a).
    { induction a as [|c a IH]; [reflexivity|]. rewrite append_cons. simpl.
      rewrite IH. reflexivity. }
    assert (Hl : String.length k = String.length (substring k 0 8 +:+ ""))
      by (rewrite <- Hrest; reflexivity).
    rewrite Happ, Hfrag in Hl. lia.
  - rewrite (onEvent_string_key record_emit input k log Hk). reflexivity.
Qed.

Lemma long_apiKey_prefix_only_witness :
  exists frag rest : string,
    "secret123" = frag +:+ rest
    /\ String.length frag = 8
    /\ rest <> ""
    /\ onEvent record_emit (Sample.input_hi Sample.resolved_secret) []
       = (Normal tt,
          ([] ++
           [ (None,
              payload
                (processed
                   (prop (inputConfig (event (Sample.input_hi Sample.resolved_secret)))
                         "message")
                   (prop (config (app (Sample.input_hi Sample.resolved_secret)))
                         "baseUrl") frag)
                (prop (inputConfig (event (Sample.input_hi Sample.resolved_secret)))
                      "message")) ])%list).
Proof.
  apply (long_apiKey_prefix_only (Sample.input_hi Sample.resolved_secret)
           "secret123" []).
  - vm_compute. reflexivity.
  - simpl. lia.
Defined.

(** * A valid delivery to an installed app *)

Lemma input_config_keys : NoDup input_config.*1.
Proof. apply (bool_decide_unpack _). vm_compute. exact I. Qed.

(** A field of type string that resolves to a value resolves to a string, when
    its default, if any, is a string. *)
Lemma resolve_field_string (k : string) (spec : FieldSpec)
    (supplied ov : option value) :
  type spec = TString ->
  (forall d, dflt spec = Some d -> exists s, d = VStr s) ->
  resolve_field k spec supplied = inr ov ->
  ov = None \/ exists s, ov = Some (VStr s).
Proof.
  intros Hty Hd. unfold resolve_field. rewrite Hty.
  destruct (unset supplied).
  - destruct (dflt spec) as [d|].
    + intros [= <-]. right. destruct (Hd d eq_refl) as [s ->]. exists s. reflexivity.
    + destruct (required spec); [discriminate|]. intros [= <-]. left. reflexivity.
  - destruct supplied as [v|]; [|intros [= <-]; left; reflexivity].
    destruct v as [| |b|s]; simpl; try discriminate.
    match goal with
    | |- context [if ?c then _ else _] => destruct c
    end; [discriminate|].
    intros [= <-]. right. exists s. reflexivity.
Qed.

(** A required field without a default that resolves was supplied, and
    resolves to the supplied value. *)
Lemma resolve_field_required (k : string) (spec : FieldSpec)
    (supplied ov : option value) :
  required spec = true -> dflt spec = None ->
  resolve_field k spec supplied = inr ov ->
  exists v, supplied = Some v /\ ov = Some v.
Proof.
  intros Hreq Hd. unfold resolve_field. rewrite Hreq, Hd.
  destruct (unset supplied) eqn:Hunset; [discriminate|].
  destruct supplied as [v|]; [|discriminate Hunset].
  destruct (negb (has_type v (type spec))); [discriminate|].
  destruct (true && negb (bool_decide (is_Some None)) && is_empty v); [discriminate|].
  intros [= <-]. exists v. split; reflexivity.
Qed.

(** On a running installation, a delivery to the example block whose
    parameters pass validation reaches the handler. *)
Lemma dispatch_example_running (ps resolved validated : gmap string value)
    (h : State) :
  status h = Running resolved ->
  validateInput input_config ps = inr validated ->
  dispatch (Main.app State) "example" "default" ps h
  = invoke "example" (exampleBlock State)
      {| in_config := input_config;
         in_onEvent := fun emit input => onEvent emit input |}
      {| event := {| inputConfig := validated |};
         app := {| config := resolved |} |} h.
Proof.
  intros Hst Hval. unfold dispatch. rewrite Hst.
  change (assoc "example" (app_blocks (Main.app State)))
    with (Some (exampleBlock State)).
  cbv beta iota.
  change (assoc "default" (blk_inputs (exampleBlock State)))
    with (Some {| in_config := input_config;
                  in_onEvent := fun (emit : EmitCap State) input =>
                                  onEvent emit input |}).
  cbv beta iota. cbn [in_config]. rewrite Hval. reflexivity.
Qed.

(** X6.  The schemas that the template declares are enough for its handler:
    when the installer's values pass the resolution against [Main.config] and
    an event's parameters pass the validation against the example block's
    input schema, the dispatch to the example block succeeds and appends
    exactly one event, on the default output, built from the supplied
    [message], the resolved [baseUrl] and the first eight characters of the
    supplied [apiKey]. *)
Theorem valid_delivery_succeeds (raw ps resolved validated : gmap string value)
    (h : State) :
  resolveConfig Main.config raw = inr resolved ->
  validateInput input_config ps = inr validated ->
  status h = Running resolved ->
  exists k m b : string,
    raw !! "apiKey" = Some (VStr k)
    /\ ps !! "message" = Some (VStr m)
    /\ resolved !! "baseUrl" = Some (VStr b)
    /\ dispatch (Main.app State) "example" "default" ps h
       = (Succeeded,
          {| status := status h;
             emitted :=
               emitted h ++
               [ {| em_block := "example"; em_output := "default";
                    em_payload :=
                      payload (processed (VStr m) (VStr b) (substring k 0 8))
                              (VStr m) |} ];
             started := S (started h);
             reported := reported h |}).
Proof.
  intros Hres Hval Hst.
  apply resolveConfig_inr in Hres as [Herrs Hsnd].
  pose proof (proj1 (check_fields_no_error _ _) Herrs) as Hall.
  assert (HinK : ("apiKey", Sample.apiKey_spec) ∈ Main.config) by left.
  assert (HinB : ("baseUrl", Sample.baseUrl_spec) ∈ Main.config) by (right; left).
  destruct (Hall _ _ HinK) as [ovK HovK]. destruct (Hall _ _ HinB) as [ovB HovB].
  pose proof (check_fields_lookup _ _ _ _ _ main_config_keys HinK HovK) as HlK.
  pose proof (check_fields_lookup _ _ _ _ _ main_config_keys HinB HovB) as HlB.
  rewrite Hsnd in HlK, HlB.
  destruct (resolve_field_required "apiKey" Sample.apiKey_spec _ _
              eq_refl eq_refl HovK) as [vK [HrawK ->]].
  destruct (resolve_field_string "apiKey" Sample.apiKey_spec _ _ eq_refl
              ltac:(intros d [=]) HovK)
    as [HnK | [k [= ->]]]; [discriminate HnK|].
  assert (HB : exists b, ovB = Some (VStr b)).
  { destruct (resolve_field_string "baseUrl" Sample.baseUrl_spec _ _ eq_refl
                ltac:(intros d [= <-]; eexists; reflexivity) HovB)
      as [-> | [b ->]]; [|exists b; reflexivity].
    unfold resolve_field in HovB. simpl in HovB.
    destruct (unset (raw !! "baseUrl")) eqn:Hu; [discriminate HovB|].
    destruct (raw !! "baseUrl") as [v|]; [|discriminate Hu].
    destruct v; simpl in HovB; discriminate HovB. }
  destruct HB as [b ->].
  pose proof Hval as Hval'. unfold validateInput in Hval.
  apply resolveConfig_inr in Hval as [HerrsV HsndV].
  pose proof (proj1 (check_fields_no_error _ _) HerrsV) as HallV.
  pose (message_spec := {| name := "Message";
                           description := "The text message to process";
                           type := TString; required := true;
                           sensitive := false; dflt := None |}).
  assert (HinM : ("message", message_spec) ∈ input_config) by left.
  destruct (HallV _ _ HinM) as [ovM HovM].
  pose proof (check_fields_lookup _ _ _ _ _ input_config_keys HinM HovM) as HlM.
  rewrite HsndV in HlM.
  destruct (resolve_field_required "message" message_spec _ _
              eq_refl eq_refl HovM) as [vM [HpsM ->]].
  destruct (resolve_field_string "message" message_spec _ _ eq_refl
              ltac:(intros d [=]) HovM) as [HnM | [m [= ->]]]; [discriminate HnM|].
  exists k, m, b. split; [exact HrawK|]. split; [exact HpsM|]. split; [exact HlB|].
  rewrite (dispatch_example_running ps resolved validated h Hst Hval').
  rewrite (invoke_example_succeeds _ k m h _ eq_refl).
  - unfold prop. simpl. rewrite HlB. reflexivity.
  - unfold prop. simpl. rewrite HlK. reflexivity.
  - unfold prop. simpl. rewrite HlM. reflexivity.
Qed.

Lemma valid_delivery_succeeds_witness :
  exists k m b : string,
    Sample.raw_secret !! "apiKey" = Some (VStr k)
    /\ Sample.message_hi !! "message" = Some (VStr m)
    /\ Sample.resolved_secret !! "baseUrl" = Some (VStr b)
    /\ dispatch (Main.app State) "example" "default" Sample.message_hi
         (install (Main.app State) Sample.raw_secret)
       = (Succeeded,
          {| status := status (install (Main.app State) Sample.raw_secret);
             emitted :=
               emitted (install (Main.app State) Sample.raw_secret) ++
               [ {| em_block := "example"; em_output := "default";
                    em_payload :=
                      payload (processed (VStr m) (VStr b) (substring k 0 8))
                              (VStr m) |} ];
             started := S (started (install (Main.app State) Sample.raw_secret));
             reported := reported (install (Main.app State) Sample.raw_secret) |}).
Proof.
  apply (valid_delivery_succeeds Sample.raw_secret Sample.message_hi
           Sample.resolved_secret Sample.message_hi
           (install (Main.app State) Sample.raw_secret)).
  - vm_compute. reflexivity.
  - vm_compute. reflexivity.
  - vm_compute. reflexivity.
Defined.

(** * The setup script *)

Import Setup.

(** ** Substitution on one line *)

Lemma prefix_append (pat post : string) : String.prefix pat (pat +:+ post) = true.
Proof.
  induction pat as [|a pat IH].
  - change ("" +:+ post) with post. destruct post; reflexivity.
  - rewrite append_cons. simpl.
    destruct (Ascii.ascii_dec a a); [exact IH | congruence].
Qed.

(** The characters of a match are dropped. *)
Lemma substitute_from_drop (pat repl a rest : string) :
  substitute_from pat repl (String.length a) (a +:+ rest)
  = substitute_from pat repl 0 rest.
Proof.
  induction a as [|c a IH]; [reflexivity|].
  rewrite append_cons. simpl. exact IH.
Qed.

(** At a match the replacement is written and the scan goes on behind it. *)
Lemma substitute_match (c0 : Ascii.ascii) (p repl post : string) :
  substitute (String c0 p) repl (String c0 p +:+ post)
  = repl +:+ substitute (String c0 p) repl post.
Proof.
  unfold substitute.
  pose proof (prefix_append (String c0 p) post) as Hpre.
  rewrite append_cons in *. cbn [substitute_from]. rewrite Hpre.
  f_equal.
  replace (String.length (String c0 p) - 1) with (String.length p)
    by (simpl; lia).
  apply substitute_from_drop.
Qed.

(** Text without the first character of the pattern is copied. *)
Lemma substitute_app_lacks (c0 : Ascii.ascii) (p repl pre rest : string) :
  lacks c0 pre = true ->
  substitute (String c0 p) repl (pre +:+ rest)
  = pre +:+ substitute (String c0 p) repl rest.
Proof.
  unfold substitute. induction pre as [|a pre IH]; intros Hl; [reflexivity|].
  simpl in Hl. apply andb_true_iff in Hl as [Ha Hl].
  rewrite !append_cons. cbn [substitute_from].
  assert (Hno : String.prefix (String c0 p) (String a (pre +:+ rest)) = false).
  { simpl. destruct (Ascii.ascii_dec c0 a) as [->|]; [|reflexivity].
    rewrite Ascii.eqb_refl in Ha. discriminate Ha. }
  rewrite Hno. f_equal. apply IH. exact Hl.
Qed.

Lemma append_empty (s : string) : s +:+ "" = s.
Proof.
  induction s as [|c s IH]; [reflexivity|]. rewrite append_cons, IH. reflexivity.
Qed.

Lemma substitute_lacks (c0 : Ascii.ascii) (p repl s : string) :
  lacks c0 s = true -> substitute (String c0 p) repl s = s.
Proof.
  intros Hl. rewrite <- (append_empty s) at 1.
  rewrite substitute_app_lacks by exact Hl. apply append_empty.
Qed.

Lemma lacks_append (c : Ascii.ascii) (a b : string) :
  lacks c (a +:+ b) = lacks c a && lacks c b.
Proof.
  induction a as [|x a IH]; [reflexivity|].
  rewrite append_cons. simpl. rewrite IH. apply andb_assoc.
Qed.

(** A line in which the pattern does not occur is copied. *)
Lemma substitute_absent (pat repl line : string) :
  includes pat line = false -> substitute pat repl line = line.
Proof.
  unfold substitute. induction line as [|c line IH]; intros Hinc; [reflexivity|].
  cbn [includes] in Hinc. apply orb_false_iff in Hinc as [Hpre Hinc].
  cbn [substitute_from]. rewrite Hpre. f_equal. apply IH. exact Hinc.
Qed.

(** The name pass steps over a description placeholder. *)
Lemma name_pass_keeps_description (APP_NAME post : string) :
  substitute name_placeholder APP_NAME (description_placeholder +:+ post)
  = description_placeholder +:+ substitute name_placeholder APP_NAME post.
Proof. vm_compute. reflexivity. Qed.

(** X7.  A description is inserted as it was typed: on a line that holds the
    description placeholder between text without an opening brace, both
    substitutions together put the description in the placeholder's place and
    change nothing else, for every name and description without a character
    special to [sed] (a description that itself spells a placeholder keeps
    it). *)
Theorem customize_line_description (APP_NAME APP_DESCRIPTION pre post : string) :
  plain APP_NAME = true -> plain APP_DESCRIPTION = true ->
  brace_free pre = true -> brace_free post = true ->
  customize_line APP_NAME APP_DESCRIPTION (pre +:+ description_placeholder +:+ post)
  = pre +:+ APP_DESCRIPTION +:+ post.
Proof.
  intros _ _ Hpre Hpost. unfold customize_line, brace_free in *.
  unfold name_placeholder at 1.
  rewrite (substitute_app_lacks _ _ _ pre _ Hpre).
  fold name_placeholder. rewrite name_pass_keeps_description.
  unfold name_placeholder.
  rewrite (substitute_lacks _ _ _ post Hpost).
  unfold description_placeholder.
  rewrite (substitute_app_lacks _ _ _ pre _ Hpre).
  rewrite substitute_match.
  rewrite (substitute_lacks _ _ _ post Hpost). reflexivity.
Qed.

Lemma customize_line_description_witness :
  customize_line "Slack Integration" "Posts to {{APP_NAME}} channels"
    SetupSample.main_instructions_line
  = ("    " +:+ SetupSample.dq) +:+ "Posts to {{APP_NAME}} channels"
      +:+ (String (Ascii.ascii_of_nat 92) "n" +:+ String (Ascii.ascii_of_nat 92) "n"
           +:+ "To install:" +:+ String (Ascii.ascii_of_nat 92) "n"
           +:+ "1. Add your API key" +:+ String (Ascii.ascii_of_nat 92) "n"
           +:+ "2. Configure the base URL if needed" +:+ String (Ascii.ascii_of_nat 92) "n"
           +:+ "3. Start using the blocks in your flows" +:+ SetupSample.dq +:+ ",").
Proof.
  apply (customize_line_description "Slack Integration"
           "Posts to {{APP_NAME}} channels" ("    " +:+ SetupSample.dq)).
  - vm_compute. reflexivity.
  - vm_compute. reflexivity.
  - vm_compute. reflexivity.
  - vm_compute. reflexivity.
Defined.

(** X8.  A name goes through the second substitution: for a name and a
    description without a character special to [sed], on a line that holds
    the name placeholder between text without an opening brace, the result is
    the description pass applied to the line with the name in place.  With a
    name without an opening brace that is the line with the name in the
    placeholder's place. *)
Theorem customize_line_name (APP_NAME APP_DESCRIPTION pre post : string) :
  plain APP_NAME = true -> plain APP_DESCRIPTION = true ->
  brace_free pre = true -> brace_free post = true ->
  customize_line APP_NAME APP_DESCRIPTION (pre +:+ name_placeholder +:+ post)
  = substitute description_placeholder APP_DESCRIPTION (pre +:+ APP_NAME +:+ post)
  /\ (brace_free APP_NAME = true ->
      customize_line APP_NAME APP_DESCRIPTION (pre +:+ name_placeholder +:+ post)
      = pre +:+ APP_NAME +:+ post).
Proof.
  intros _ _ Hpre Hpost. unfold brace_free in *.
  assert (Hfirst : substitute name_placeholder APP_NAME
                     (pre +:+ name_placeholder +:+ post)
                   = pre +:+ APP_NAME +:+ post).
  { unfold name_placeholder.
    rewrite (substitute_app_lacks _ _ _ pre _ Hpre), substitute_match.
    rewrite (substitute_lacks _ _ _ post Hpost). reflexivity. }
  unfold customize_line. rewrite Hfirst. split; [reflexivity|].
  intros Hname. unfold description_placeholder. apply substitute_lacks.
  rewrite !lacks_append.
  apply andb_true_iff. split; [exact Hpre|].
  apply andb_true_iff. split; [exact Hname | exact Hpost].
Qed.

Lemma customize_line_name_witness :
  customize_line "Slack Integration" "Posts to channels" SetupSample.main_name_line
  = ("  name: " +:+ SetupSample.dq) +:+ "Slack Integration"
      +:+ (SetupSample.dq +:+ ",")
  /\ customize_line "My {{APP_DESCRIPTION}}" "tool" "{{APP_NAME}}" = "My tool".
Proof.
  split.
  - apply (proj2 (customize_line_name "Slack Integration" "Posts to channels"
                    ("  name: " +:+ SetupSample.dq) (SetupSample.dq +:+ ",")
                    eq_refl eq_refl eq_refl eq_refl)).
    vm_compute. reflexivity.
  - apply (proj1 (customize_line_name "My {{APP_DESCRIPTION}}" "tool" "" ""
                    eq_refl eq_refl eq_refl eq_refl)).
Defined.

(** X9.  A line in which neither placeholder occurs comes out of both
    substitutions as it went in. *)
Theorem customize_line_without_placeholder (APP_NAME APP_DESCRIPTION line : string) :
  plain APP_NAME = true -> plain APP_DESCRIPTION = true ->
  includes name_placeholder line = false ->
  includes description_placeholder line = false ->
  customize_line APP_NAME APP_DESCRIPTION line = line.
Proof.
  intros _ _ Hn Hd. unfold customize_line.
  rewrite (substitute_absent _ _ _ Hn). apply substitute_absent. exact Hd.
Qed.

Lemma customize_line_without_placeholder_witness :
  customize_line "Slack Integration" "Posts to channels"
    "# Flows App Template (Core)"
  = "# Flows App Template (Core)".
Proof.
  apply customize_line_without_placeholder; vm_compute; reflexivity.
Defined.

(** ** Substitution in the files *)

Lemma targets_distinct : NoDup targets.
Proof. apply (bool_decide_unpack _). vm_compute. exact I. Qed.

Lemma foldr_alter_other {A : Type} (f : A -> A) (paths : list string)
    (fs : gmap string A) (p : string) :
  p ∉ paths -> foldr (alter f) fs paths !! p = fs !! p.
Proof.
  induction paths as [|q paths IH]; intros Hnot; [reflexivity|].
  apply not_elem_of_cons in Hnot as [Hne Hnot]. simpl.
  rewrite lookup_alter_ne by congruence. apply IH. exact Hnot.
Qed.

Lemma foldr_alter_named {A : Type} (f : A -> A) (paths : list string)
    (fs : gmap string A) (p : string) :
  NoDup paths -> p ∈ paths -> foldr (alter f) fs paths !! p = f <$> fs !! p.
Proof.
  induction paths as [|q paths IH]; intros Hnd Hin; [inversion Hin|].
  apply NoDup_cons in Hnd as [Hfresh Hnd]. simpl.
  apply elem_of_cons in Hin as [-> | Hin].
  - rewrite lookup_alter_eq. rewrite foldr_alter_other by exact Hfresh. reflexivity.
  - rewrite lookup_alter_ne by (intros ->; contradiction).
    apply IH; assumption.
Qed.

Lemma sed_i_status (pat repl : string) (paths : list string)
    (fs : gmap string (list string)) :
  fst (sed_i pat repl paths fs) = true <-> forall p, p ∈ paths -> is_Some (fs !! p).
Proof.
  unfold sed_i. simpl. rewrite forallb_forall. split.
  - intros Hall p Hin. apply (bool_decide_unpack _).
    apply Is_true_true. apply Hall. apply list_elem_of_In. exact Hin.
  - intros Hall p Hin. apply Is_true_true. apply bool_decide_pack.
    apply Hall. apply list_elem_of_In. exact Hin.
Qed.

Lemma sed_i_named (pat repl : string) (fs : gmap string (list string)) (p : string) :
  p ∈ targets ->
  snd (sed_i pat repl targets fs) !! p
  = List.map (substitute pat repl) <$> fs !! p.
Proof. intros Hin. apply foldr_alter_named; [exact targets_distinct | exact Hin]. Qed.

Lemma sed_i_other (pat repl : string) (paths : list string)
    (fs : gmap string (list string)) (p : string) :
  p ∉ paths -> snd (sed_i pat repl paths fs) !! p = fs !! p.
Proof. apply foldr_alter_other. Qed.

Lemma customize_eq (OSTYPE APP_NAME APP_DESCRIPTION : string)
    (fs : gmap string (list string)) :
  customize OSTYPE APP_NAME APP_DESCRIPTION fs
  = replace_placeholders APP_NAME APP_DESCRIPTION fs.
Proof. unfold customize. destruct (String.prefix "darwin" OSTYPE); reflexivity. Qed.

(** X10.  For a name and a description without a character special to [sed],
    the substitutions never touch a file that the script does not name, on
    either platform and whether or not they succeed: such a file keeps its
    content, and a path that was absent stays absent.  The comment of
    [blocks/index.ts] that names the app therefore keeps its placeholder. *)
Theorem customize_leaves_other_files (OSTYPE APP_NAME APP_DESCRIPTION : string)
    (fs : gmap string (list string)) (p : string) :
  plain APP_NAME = true -> plain APP_DESCRIPTION = true ->
  p ∉ targets ->
  snd (customize OSTYPE APP_NAME APP_DESCRIPTION fs) !! p = fs !! p.
Proof.
  intros _ _ Hnot. rewrite customize_eq. unfold replace_placeholders.
  destruct (sed_i name_placeholder APP_NAME targets fs) as [ok fs1] eqn:Hfirst.
  assert (H1 : fs1 !! p = fs !! p).
  { change fs1 with (snd (ok, fs1)). rewrite <- Hfirst.
    apply sed_i_other. exact Hnot. }
  destruct ok; [|exact H1].
  rewrite sed_i_other by exact Hnot. exact H1.
Qed.

Lemma customize_leaves_other_files_witness :
  snd (customize "linux-gnu" "Slack Integration" "Posts to channels"
         SetupSample.checkout) !! "blocks/index.ts"
  = Some [ "/**"; " * Block Registry for {{APP_NAME}}" ].
Proof.
  rewrite (customize_leaves_other_files "linux-gnu" "Slack Integration"
             "Posts to channels" SetupSample.checkout "blocks/index.ts"
             eq_refl eq_refl).
  - vm_compute. reflexivity.
  - intros Hin. repeat (apply elem_of_cons in Hin as [Heq | Hin];
                        [discriminate Heq|]).
    inversion Hin.
Defined.

(** X11.  When the four named files exist, the substitutions (of a name and a
    description without a character special to [sed]) succeed and
    every named file holds, line for line, the result of both substitutions
    on its old lines. *)
Theorem customize_named_files (OSTYPE APP_NAME APP_DESCRIPTION : string)
    (fs : gmap string (list string)) :
  plain APP_NAME = true -> plain APP_DESCRIPTION = true ->
  (forall p, p ∈ targets -> is_Some (fs !! p)) ->
  fst (customize OSTYPE APP_NAME APP_DESCRIPTION fs) = true
  /\ forall p, p ∈ targets ->
       snd (customize OSTYPE APP_NAME APP_DESCRIPTION fs) !! p
       = List.map (customize_line APP_NAME APP_DESCRIPTION) <$> fs !! p.
Proof.
  intros _ _ Hall. rewrite customize_eq. unfold replace_placeholders.
  pose proof (proj2 (sed_i_status name_placeholder APP_NAME targets fs) Hall) as Hok1.
  pose proof (sed_i_named name_placeholder APP_NAME fs) as Hfs1.
  destruct (sed_i name_placeholder APP_NAME targets fs) as [ok fs1].
  simpl in Hok1, Hfs1. subst ok. split.
  - apply sed_i_status. intros p Hin. rewrite (Hfs1 p Hin).
    destruct (Hall p Hin) as [ls ->]. eexists. reflexivity.
  - intros p Hin. rewrite sed_i_named by exact Hin. rewrite (Hfs1 p Hin).
    destruct (fs !! p) as [ls|]; [|reflexivity]. simpl. f_equal.
    rewrite List.map_map. reflexivity.
Qed.

Lemma customize_named_files_witness :
  fst (customize "linux-gnu" "Slack Integration" "Posts to channels"
         SetupSample.checkout) = true
  /\ forall p, p ∈ targets ->
       snd (customize "linux-gnu" "Slack Integration" "Posts to channels"
              SetupSample.checkout) !! p
       = List.map (customize_line "Slack Integration" "Posts to channels")
           <$> SetupSample.checkout !! p.
Proof.
  apply (customize_named_files "linux-gnu" "Slack Integration" "Posts to channels"
           SetupSample.checkout eq_refl eq_refl).
  intros p Hin.
  repeat (apply elem_of_cons in Hin as [-> | Hin];
          [vm_compute; eexists; reflexivity|]).
  inversion Hin.
Defined.


